(** * gta: a shallow embedding of the compatibility sweep

    The development follows the current [main.go] (the [RunGTA] command, the
    [simpleRootManifest] type and [prepManifest]) and the vendored godep
    loader [godep.AsMetadataPair].  Go maps are finite maps that may be nil,
    slices are lists, the globals holding the command-line flags are a record,
    the gps and os collaborators are the fields of a class, every effect on
    the working directory is an entry of an event log, and a call either
    returns or panics. *)

From Stdlib Require Import Ascii String.
From stdpp Require Import base option list gmap strings fin_maps.

Local Open Scope string_scope.
Local Open Scope list_scope.
Local Open Scope nat_scope.
Local Open Scope stdpp_scope.
Set Warnings "-register-all".

(** ** Go values *)

(** Go's [error] values.  The messages built by [fmt.Errorf] are kept as
    constructors with their arguments; [ErrMsg] is an error returned by a
    collaborator. *)
Inductive error :=
| ErrMsg (msg : string)
| ErrSingleDependency
| ErrGetwd (e : error)
| ErrSourceManager (e : error)
| ErrDetect (pkg : string) (e : error)
| ErrVersionList (root : string) (e : error)
| ErrNoVersions (root : string)
| ErrOneConstraintType
| ErrInvalidSemver (expr : string)
| ErrManifestLock (e : error)
| ErrNoneMatched (root : string) (n : nat)
| ErrBackup (e : error)
| ErrEncountered.

(** A function result [(x, err)]. *)
Inductive res (A : Type) : Type :=
| Ok (a : A)
| Err (e : error).
Arguments Ok {A} a.
Arguments Err {A} e.

#[global] Instance res_ret : MRet res := fun A a => Ok a.
#[global] Instance res_bind : MBind res := fun A B k r =>
  match r with
  | Ok a => k a
  | Err e => Err e
  end.

(** A Go map [map[string]V]: either nil or an allocated finite map.  Reading a
    nil map finds nothing; assigning into a nil map panics. *)
Inductive goMap (V : Type) : Type :=
| nilMap
| mkMap (m : gmap string V).
Arguments nilMap {V}.
Arguments mkMap {V} m.

(** [v, ok := m[k]] *)
Definition map_lookup {V} (m : goMap V) (k : string) : option V :=
  match m with
  | nilMap => None
  | mkMap g => g !! k
  end.

(** [m[k] = v]; [None] is the run-time panic of an assignment to an entry of
    a nil map. *)
Definition map_assign {V} (m : goMap V) (k : string) (v : V) : option (goMap V) :=
  match m with
  | nilMap => None
  | mkMap g => Some (mkMap (<[k := v]> g))
  end.

(** [for _, d := range m]: the values, in the order the run time picks. *)
Definition map_range {V} (m : goMap V) : list V :=
  match m with
  | nilMap => []
  | mkMap g => (map_to_list g).*2
  end.

Definition is_nil {V} (m : goMap V) : bool :=
  match m with
  | nilMap => true
  | mkMap _ => false
  end.

(** ** The gps data the command handles

    The gps package is imported by the command and is not part of its
    sources.  Its types get the shape [main.go] relies on: the fields it
    reads and writes, and the constructors it calls. *)

Definition ProjectRoot := string.

Record ProjectIdentifier := mkProjectIdentifier {
  PI_ProjectRoot : ProjectRoot;
  NetworkName : string
}.

(** [gps.NewBranch] and [gps.NewVersion] build unpaired versions; a version
    listed by the source manager may be paired with its revision, and a bare
    revision is a version too (the three cases of the type switch in the
    verbose report). *)
Inductive UnpairedVersion :=
| NewBranch (name : string)
| NewVersion (tag : string).

Inductive Version :=
| Revision (rev : string)
| Unpaired (u : UnpairedVersion)
| Paired (u : UnpairedVersion) (underlying : string).

(** A [gps.Constraint]: [gps.Any()], a parsed semver range, or a version
    (every [gps.Version] is a [gps.Constraint]). *)
Inductive Constraint :=
| Any
| SemverConstraint (expr : string)
| VersionConstraint (v : Version).

#[global] Instance UnpairedVersion_eq_dec : EqDecision UnpairedVersion.
Proof. solve_decision. Defined.
#[global] Instance Version_eq_dec : EqDecision Version.
Proof. solve_decision. Defined.
#[global] Instance Constraint_eq_dec : EqDecision Constraint.
Proof. solve_decision. Defined.


(** [gps.ProjectConstraint]; the interface-typed field is nil ([None]) in the
    zero value. *)
Record ProjectConstraint := mkProjectConstraint {
  Ident : ProjectIdentifier;
  PC_Constraint : option Constraint
}.

Definition with_Constraint (pc : ProjectConstraint) (c : Constraint) : ProjectConstraint :=
  {| Ident := Ident pc; PC_Constraint := Some c |}.

Record LockedProject := mkLockedProject {
  LP_Ident : ProjectIdentifier;
  LP_Version : Version
}.

(** A [gps.Solution] and a [gps.Lock], seen through [Projects()]. *)
Definition Solution := list LockedProject.
Definition Lock := list LockedProject.

(** A [gps.Manifest], seen through its two constraint lists. *)
Record Manifest := mkManifest {
  DependencyConstraints : list ProjectConstraint;
  TestDependencyConstraints : list ProjectConstraint
}.

(** ** [simpleRootManifest] and [prepManifest] *)

Record simpleRootManifest := mkSimpleRootManifest {
  c : goMap ProjectConstraint;
  tc : goMap ProjectConstraint;
  ovr : goMap ProjectConstraint;
  ig : goMap bool
}.

Definition srm_DependencyConstraints (m : simpleRootManifest) : list ProjectConstraint :=
  map_range (c m).

Definition srm_TestDependencyConstraints (m : simpleRootManifest) : list ProjectConstraint :=
  map_range (tc m).

Definition srm_Overrides (m : simpleRootManifest) : goMap ProjectConstraint := ovr m.

Definition srm_IgnorePackages (m : simpleRootManifest) : goMap bool := ig m.

(** One pass of [for _, d := range ds { mp[d.Ident.ProjectRoot] = d }] over a
    map allocated with [make]. *)
Definition index_by_root (ds : list ProjectConstraint) : gmap string ProjectConstraint :=
  foldl (fun mp d => <[PI_ProjectRoot (Ident d) := d]> mp) ∅ ds.

(** [prepManifest(m)]; a nil manifest is [None]. *)
Definition prepManifest (m : option Manifest) : simpleRootManifest :=
  match m with
  | None =>
      {| c := mkMap ∅; tc := mkMap ∅; ovr := nilMap; ig := nilMap |}
  | Some m =>
      {| c := mkMap (index_by_root (DependencyConstraints m));
         tc := mkMap (index_by_root (TestDependencyConstraints m));
         ovr := nilMap; ig := nilMap |}
  end.

(** ** The godep loader ([godep.AsMetadataPair]) *)

Module godep.

(** [godep.Dependency] *)
Record Dependency := mkDependency {
  ImportPath : string;
  Comment : string;
  Rev : string
}.

(** [godep.Godeps]; [Deps] is the only field the loader reads. *)
Record Godeps := mkGodeps {
  G_ImportPath : string;
  GoVersion : string;
  Packages : list string;
  Deps : list Dependency
}.

(** [cfg.Dependency], with the two fields the godep package sets. *)
Record cfg_Dependency := mkCfgDependency {
  Name : string;
  Version : string
}.

(** [cfg.Lock] and [cfg.Lockfile] *)
Record cfg_Lock := mkCfgLock {
  L_Name : string;
  Revision : string
}.

Record cfg_Lockfile := mkCfgLockfile {
  Imports : list cfg_Lock
}.

Section loader.
(** [util.NormalizeName], which returns the root and the remaining path. *)
Variable NormalizeName : string → string * string.

(** The loop over [godeps.Deps], with [seen], [m] and [l.Imports] as its
    state. *)
Fixpoint collect (deps : list Dependency) (seen : gmap string bool)
    (m : list cfg_Dependency) (imports : list cfg_Lock)
    : list cfg_Dependency * list cfg_Lock :=
  match deps with
  | [] => (m, imports)
  | d :: deps' =>
      let pkg := (NormalizeName (ImportPath d)).1 in
      match seen !! pkg with
      | Some _ => collect deps' seen m imports
      | None =>
          collect deps' (<[pkg := true]> seen)
            (m ++ [{| Name := pkg; Version := "" |}])
            (imports ++ [{| L_Name := pkg; Revision := Rev d |}])
      end
  end.

(** [AsMetadataPair(dir)].  [file] is what [os.Stat], [os.Open] and the
    JSON decoder make of [dir/Godeps/Godeps.json]: the decoded value, or
    the error of the first of the three that fails. *)
Definition AsMetadataPair (file : res Godeps)
    : res (list cfg_Dependency * cfg_Lockfile) :=
  godeps ← file;
  let '(m, imports) := collect (Deps godeps) ∅ [] [] in
  Ok (m, {| Imports := imports |}).

(** The spec's words: one entry per canonical identifier, the first
    occurrence kept. *)
Fixpoint first_occurrences (deps : list Dependency) : list Dependency :=
  match deps with
  | [] => []
  | d :: deps' =>
      d :: filter (fun d' => (NormalizeName (ImportPath d')).1
                               ≠ (NormalizeName (ImportPath d)).1)
                  (first_occurrences deps')
  end.
End loader.

End godep.

(** ** Strings and paths *)

(** [strings.Split(s, sep)] for a separator of one character, the form the
    command uses ([strings.Split(run, " ")]): one piece per occurrence of the
    separator, plus one; empty pieces are kept. *)
Fixpoint strings_Split (s : string) (sep : ascii) : list string :=
  match s with
  | EmptyString => [""]
  | String a s' =>
      if Ascii.eqb a sep then "" :: strings_Split s' sep
      else match strings_Split s' sep with
           | [] => [String a ""]
           | p :: ps => String a p :: ps
           end
  end.



(** [strings.TrimPrefix(s, prefix)] *)
Fixpoint strip_prefix (prefix s : string) : option string :=
  match prefix, s with
  | EmptyString, _ => Some s
  | String a p', String b s' => if Ascii.eqb a b then strip_prefix p' s' else None
  | String _ _, EmptyString => None
  end.

Definition strings_TrimPrefix (s prefix : string) : string :=
  default s (strip_prefix prefix s).

(** [strings.Join(pieces, sep)] for a separator of one character. *)
Fixpoint strings_Join (pieces : list string) (sep : ascii) : string :=
  match pieces with
  | [] => ""
  | [piece] => piece
  | piece :: pieces' => piece +:+ String sep (strings_Join pieces' sep)
  end.

(** How often a character occurs in a string. *)
Fixpoint occurrences (a : ascii) (s : string) : nat :=
  match s with
  | EmptyString => 0
  | String b s' => (if Ascii.eqb b a then 1 else 0) + occurrences a s'
  end.

(** [filepath.Clean(path)], by the names between the slashes: an empty
    name (two slashes in a row, or one at the end) and [.] are dropped, [..]
    takes the name before it away, or is dropped at the root, or stays when
    the path is relative and only [..] names come before it.  [names] holds
    the names kept so far. *)
Definition clean_step (rooted : bool) (names : list string) (name : string)
    : list string :=
  if bool_decide (name = "") || bool_decide (name = ".") then names
  else if bool_decide (name = "..") then
    match last names with
    | Some top => if bool_decide (top = "..") then names ++ [name] else removelast names
    | None => if rooted then names else names ++ [name]
    end
  else names ++ [name].

Definition filepath_Clean (path : string) : string :=
  let rooted := bool_decide (is_Some (strip_prefix "/" path)) in
  let names := foldl (clean_step rooted) [] (strings_Split path "/") in
  let out := (if rooted then "/" else "") +:+ strings_Join names "/" in
  if bool_decide (out = "") then "." else out.

(** A name that [filepath.Clean] keeps as it is. *)
Definition plain (name : string) : Prop :=
  name ≠ "" ∧ name ≠ "." ∧ name ≠ ".." ∧ occurrences "/" name = 0.

(** [filepath.Join(dir, name)]: the elements from the first one that is not
    empty on, joined by slashes and cleaned; the empty string when both are
    empty.  Paths use the slash as separator, so [filepath.ToSlash] is the
    identity. *)
Definition filepath_Join (dir name : string) : string :=
  if bool_decide (dir = "") then
    if bool_decide (name = "") then "" else filepath_Clean name
  else filepath_Clean (dir +:+ "/" +:+ name).

(** ** The file system under the working directory *)

(** What a path holds: a file with its bytes, or a directory with its
    entries. *)
Inductive node :=
| File (data : string)
| Dir (entries : list (string * node)).

(** The file system maps paths to what they hold.  What is inside a
    directory may be given with the directory, as its entries, or have a
    path of its own, below the path of the directory. *)
Abbreviation FS := (gmap string node).

(** [q] is the path [p], or a path below it. *)
Definition within (p q : string) : bool :=
  match strip_prefix p q with
  | Some EmptyString => true
  | Some (String a _) => Ascii.eqb a "/"
  | None => false
  end.

(** Where what is at [q], a path within [old], is found once [old] is
    renamed to [new]. *)
Definition moved_to (old new q : string) : string :=
  new +:+ default "" (strip_prefix old q).

Definition is_dir (n : node) : bool :=
  match n with
  | Dir _ => true
  | File _ => false
  end.

(** [os.Stat(p)], reduced to its error. *)
Definition os_Stat (p : string) (fs : FS) : option error :=
  match fs !! p with
  | Some _ => None
  | None => Some (ErrMsg "no such file or directory")
  end.

(** [os.RemoveAll(p)]: [p] goes with everything below it; a missing path is
    not an error. *)
Definition os_RemoveAll (p : string) (fs : FS) : FS :=
  filter (fun entry => within p entry.1 = false) fs.

(** The file system once [old] has taken the place of [new]: what was
    within [old] is within [new], and nothing else is. *)
Definition renamed (old new : string) (fs : FS) : FS :=
  list_to_map ((fun entry => (moved_to old new entry.1, entry.2))
                 <$> map_to_list (filter (fun entry => within old entry.1 = true) fs))
  ∪ os_RemoveAll new (os_RemoveAll old fs).

(** [os.Rename(old, new)], for a [new] that is not below [old] (the
    command renames between two entries of one directory): a missing [old]
    is an error; an existing directory at [new] is never replaced; an
    existing file at [new] is replaced by a file and refuses a directory.  A
    directory moves with everything below it. *)
Definition os_Rename (old new : string) (fs : FS) : FS * option error :=
  match fs !! old with
  | None => (fs, Some (ErrMsg "no such file or directory"))
  | Some n =>
      match fs !! new with
      | None => (renamed old new fs, None)
      | Some (Dir _) => (fs, Some (ErrMsg "file exists"))
      | Some (File _) =>
          if is_dir n then (fs, Some (ErrMsg "not a directory"))
          else (renamed old new fs, None)
      end
  end.

(** ** Flags, collaborators and effects *)

(** The package-level variables bound to the command-line flags. *)
Record Flags := mkFlags {
  run : string;
  branch : string;
  semver : string;
  version : string;
  verbose : bool
}.

(** [gps.SolveParameters].  [SP_Manifest] holds the maps of the root manifest by
    reference, so the solver reads the entries present when it is called. *)
Record SolveParameters := mkSolveParameters {
  SP_Manifest : simpleRootManifest;
  SP_Lock : option Lock;
  RootDir : string;
  ImportRoot : ProjectRoot;
  Trace : bool
}.

(** What the command calls outside its own file: the process environment,
    the gps source manager and solver, the glide analyzer, the tree writer
    and the executed command. *)
Class Collaborators := {
  os_Getwd : res string;
  GOPATH : string;
  NewSourceManager : option error;
  DeduceProjectRoot : string → res ProjectRoot;
  ListVersions : ProjectIdentifier → res (list Version);
  SortForUpgrade : list Version → list Version;
  NewSemverConstraint : string → res Constraint;
  Matches : Constraint → Version → bool;
  DeriveManifestAndLock : string → ProjectRoot → res (option Manifest * option Lock);
  Prepare : SolveParameters → option error;
  Solve : SolveParameters → res Solution;
  WriteDepTree : string → option Solution → FS → FS * option error;
  CombinedOutput : string → string → list string → FS → FS * string * option error
}.

(** [root@version], the name of a candidate in the report. *)
Definition NameVersion : Type := ProjectRoot * option Version.

(** The lines written to standard output (their layout is left to [fmt]). *)
Inductive Line :=
| LChecking (root : ProjectRoot) (vl : list Version)
| LLooking (root : ProjectRoot) (v : Version)
| LSuccess
| LProject (text : string)
| LFailed
| LError (e : error)
| LSpacer
| LFailedSolving (nv : NameVersion) (e : error)
| LSucceeded (nv : NameVersion)
| LSkippingCheck (nv : NameVersion) (e : error)
| LFailedWith (nv : NameVersion) (e : error) (out : string).

(** The effects of a run, in the order they happen. *)
Inductive Event :=
| EvPrint (l : Line)
| EvSolve (params : SolveParameters) (err : option error)
| EvStat (p : string) (err : option error)
| EvRename (old new : string) (err : option error)
| EvWriteDepTree (p : string) (s : option Solution) (err : option error)
| EvCommand (dir : string) (name : string) (args : list string)
            (out : string) (err : option error)
| EvRemoveAll (p : string).

(** Events that go to the file system (reads included). *)
Definition touches_fs (e : Event) : bool :=
  match e with
  | EvPrint _ | EvSolve _ _ => false
  | _ => true
  end.

(** The state a run threads: the file system and the log of the events so
    far, each with the file system it left. *)
Record World := mkWorld {
  w_fs : FS;
  w_log : list (Event * FS)
}.

Definition emit (e : Event) (fs : FS) (w : World) : World :=
  {| w_fs := fs; w_log := w_log w ++ [(e, fs)] |}.

Definition print (l : Line) (w : World) : World :=
  emit (EvPrint l) (w_fs w) w.

Definition prints (ls : list Line) (w : World) : World :=
  foldl (fun w l => print l w) w ls.

Definition do_Stat (p : string) (w : World) : World * option error :=
  let err := os_Stat p (w_fs w) in
  (emit (EvStat p err) (w_fs w) w, err).

Definition do_Rename (old new : string) (w : World) : World * option error :=
  let '(fs, err) := os_Rename old new (w_fs w) in
  (emit (EvRename old new err) fs w, err).

Definition do_RemoveAll (p : string) (w : World) : World :=
  emit (EvRemoveAll p) (os_RemoveAll p (w_fs w)) w.

(** How a call ends: it returns, or it panics and leaves the world [w]
    (no deferred call of [RunGTA] that goes to the file system is registered
    before the places where it can panic). *)
Inductive ends (A : Type) : Type :=
| Returns (a : A)
| Panics (w : World).
Arguments Returns {A} a.
Arguments Panics {A} w.

#[global] Instance ends_bind : MBind ends := fun A B k r =>
  match r with
  | Returns a => k a
  | Panics w => Panics w
  end.
#[global] Instance ends_fmap : FMap ends := fun A B f r =>
  match r with
  | Returns a => Returns (f a)
  | Panics w => Panics w
  end.

(** [solnOrErr], the type local to [RunGTA]; the zero value has all three
    fields nil. *)
Record solnOrErr := mkSolnOrErr {
  soe_v : option Version;
  soe_s : option Solution;
  soe_err : option error
}.

Definition zero_solnOrErr : solnOrErr :=
  {| soe_v := None; soe_s := None; soe_err := None |}.

(** ** The verbose report *)

(** [ppi], the closure of [RunGTA] that names a project in the verbose
    report. *)
Definition ppi (id : ProjectIdentifier) : string :=
  if bool_decide (NetworkName id = "")
     || bool_decide (NetworkName id = PI_ProjectRoot id)
  then PI_ProjectRoot id
  else PI_ProjectRoot id +:+ " (from " +:+ NetworkName id +:+ ")".

(** [s[:7]]; [None] is the panic of a slice bound out of range. *)
Definition slice7 (s : string) : option string :=
  if bool_decide (7 ≤ String.length s) then Some (String.substring 0 7 s) else None.

(** [String()] of an unpaired version: the branch or tag name. *)
Definition unpaired_String (u : UnpairedVersion) : string :=
  match u with
  | NewBranch name => name
  | NewVersion tag => tag
  end.

Definition tab : string := String (ascii_of_nat 9) "".

(** The body of the verbose loop over [soe.s.Projects()]: the text printed
    for one project, by the type of its version; [None] is a panic. *)
Definition verbose_project (p : LockedProject) : option string :=
  match LP_Version p with
  | Revision r =>
      short ← slice7 r;
      Some (tab +:+ ppi (LP_Ident p) +:+ " at " +:+ short)
  | Unpaired u =>
      Some (tab +:+ ppi (LP_Ident p) +:+ " at " +:+ unpaired_String u)
  | Paired u r =>
      short ← slice7 r;
      Some (tab +:+ ppi (LP_Ident p) +:+ " at " +:+ unpaired_String u
            +:+ " (" +:+ short +:+ ")")
  end.

(** The revision a version carries, if any. *)
Definition version_revision (v : Version) : option string :=
  match v with
  | Revision r | Paired _ r => Some r
  | Unpaired _ => None
  end.

(** ** [RunGTA] *)

Section RunGTA.
Context `{Collaborators}.
Variable fl : Flags.

Definition nonempty (x : string) : bool := bool_decide (x ≠ "").

(** The switch that turns the three constraint flags into a constraint.
    Its four cases are exhaustive (when the first three tests fail,
    [semver] is not empty), so the last one is the default here. *)
Definition parseConstraint : res Constraint :=
  if bool_decide (branch fl = "") && bool_decide (semver fl = "")
     && bool_decide (version fl = "")
  then Ok Any
  else if nonempty (branch fl) then
    if nonempty (semver fl) || nonempty (version fl)
    then Err ErrOneConstraintType
    else Ok (VersionConstraint (Unpaired (NewBranch (branch fl))))
  else if nonempty (version fl) then
    if nonempty (semver fl) || nonempty (branch fl)
    then Err ErrOneConstraintType
    else Ok (VersionConstraint (Unpaired (NewVersion (version fl))))
  else
    if nonempty (version fl) || nonempty (branch fl)
    then Err ErrOneConstraintType
    else match NewSemverConstraint (semver fl) with
         | Ok cs => Ok cs
         | Err _ => Err (ErrInvalidSemver (semver fl))
         end.

(** What the command knows once the project and the dependency are
    resolved (up to the solve parameters). *)
Record Prepared := mkPrepared {
  p_root : ProjectRoot;
  p_wd : string;
  p_vlist : list Version;
  p_constraint : Constraint;
  p_rm : simpleRootManifest;
  p_focus : ProjectConstraint;
  p_lock : option Lock;
  p_importroot : ProjectRoot
}.

(** [params], rebuilt around the current entries of the shared maps. *)
Definition params_of (p : Prepared) (rm : simpleRootManifest) : SolveParameters :=
  {| SP_Manifest := rm; SP_Lock := p_lock p; RootDir := p_wd p;
     ImportRoot := p_importroot p; Trace := true |}.

(** From the argument check to the solve parameters. *)
Definition prepare (args : list string) : res Prepared :=
  pkg ← match args with
        | [pkg] => Ok pkg
        | _ => Err ErrSingleDependency
        end;
  wd ← match os_Getwd with
       | Ok wd => Ok wd
       | Err e => Err (ErrGetwd e)
       end;
  _ ← match NewSourceManager with
      | None => Ok ()
      | Some e => Err (ErrSourceManager e)
      end;
  root ← match DeduceProjectRoot pkg with
         | Ok root => Ok root
         | Err e => Err (ErrDetect pkg e)
         end;
  let pi := {| PI_ProjectRoot := root; NetworkName := "" |} in
  vlist ← match ListVersions pi with
          | Ok vlist => Ok vlist
          | Err e => Err (ErrVersionList root e)
          end;
  if bool_decide (length vlist = 0) then Err (ErrNoVersions root) else
  let vlist := SortForUpgrade vlist in
  cs ← parseConstraint;
  let srcprefix := filepath_Join GOPATH "src" +:+ "/" in
  let importroot := strings_TrimPrefix wd srcprefix in
  '(m, l) ← match DeriveManifestAndLock wd importroot with
            | Ok ml => Ok ml
            | Err e => Err (ErrManifestLock e)
            end;
  let rm := prepManifest m in
  let focus :=
    match map_lookup (c rm) root with
    | Some focus => focus
    | None => {| Ident := {| PI_ProjectRoot := root; NetworkName := "" |};
                 PC_Constraint := None |}
    end in
  let focus := with_Constraint focus cs in
  Ok {| p_root := root; p_wd := wd; p_vlist := vlist; p_constraint := cs;
        p_rm := rm; p_focus := focus; p_lock := l;
        p_importroot := importroot |}.

(** The loop that keeps the versions the constraint matches. *)
Definition filterVersions (cs : Constraint) (vlist : list Version) : list Version :=
  foldl (fun vl v => if Matches cs v then (vl ++ [v])%list else vl) [] vlist.

(** The state of the solving loop: the focal constraint, the root manifest
    with its shared maps, the slice of outcomes and the world. *)
Record SweepState := mkSweepState {
  ss_focus : ProjectConstraint;
  ss_rm : simpleRootManifest;
  ss_solns : list solnOrErr;
  ss_w : World
}.

(** [gps.Prepare] followed, when it succeeds, by [Solve]. *)
Definition solve (params : SolveParameters) (v : Version) : solnOrErr :=
  match Prepare params with
  | Some e => {| soe_v := Some v; soe_s := None; soe_err := Some e |}
  | None =>
      match Solve params with
      | Ok sol => {| soe_v := Some v; soe_s := Some sol; soe_err := None |}
      | Err e => {| soe_v := Some v; soe_s := None; soe_err := Some e |}
      end
  end.

(** [for _, p := range soe.s.Projects()] of the verbose report: a line per
    project, until a line cannot be built. *)
Fixpoint verbose_report (projects : list LockedProject) (w : World) : ends World :=
  match projects with
  | [] => Returns w
  | lp :: projects' =>
      match verbose_project lp with
      | None => Panics w
      | Some text => verbose_report projects' (print (LProject text) w)
      end
  end.

(** The report that follows a solve attempt. *)
Definition solve_report (soe : solnOrErr) (w : World) : ends World :=
  match soe_err soe with
  | None =>
      let w := print LSuccess w in
      if verbose fl then verbose_report (default [] (soe_s soe)) w else Returns w
  | Some e =>
      let w := print LFailed w in
      Returns (if verbose fl then print (LError e) w else w)
  end.

(** [for k, v := range vl { ... solns[k] = soe }] *)
Fixpoint sweep_loop (p : Prepared) (k : nat) (vl : list Version)
    (st : SweepState) : ends SweepState :=
  match vl with
  | [] => Returns st
  | v :: vl' =>
      let w := print (LLooking (p_root p) v) (ss_w st) in
      let focus := with_Constraint (ss_focus st) (VersionConstraint v) in
      match map_assign (c (ss_rm st)) (p_root p) focus with
      | None => Panics w
      | Some c' =>
          let rm := {| c := c'; tc := tc (ss_rm st);
                       ovr := ovr (ss_rm st); ig := ig (ss_rm st) |} in
          let params := params_of p rm in
          let soe := solve params v in
          let w := emit (EvSolve params (soe_err soe)) (w_fs w) w in
          w ← solve_report soe w;
          sweep_loop p (S k) vl'
            {| ss_focus := focus; ss_rm := rm;
               ss_solns := <[k := soe]> (ss_solns st); ss_w := w |}
      end
  end.

Definition sweep (p : Prepared) (vl : list Version) (w : World) : ends SweepState :=
  sweep_loop p 0 vl
    {| ss_focus := p_focus p; ss_rm := p_rm p;
       ss_solns := replicate (length vl) zero_solnOrErr; ss_w := w |}.

(** The body of the reporting loop for one outcome; the state is the world
    and the [fail] flag.  The command gets no [Dir], so it runs in the
    working directory of the process, [wd]. *)
Definition check_one (p : Prepared) (vpath : string) (soln : solnOrErr)
    (st : World * bool) : World * bool :=
  let '(w, fail) := st in
  let nv := (p_root p, soe_v soln) in
  match soe_err soln with
  | Some e => (print (LFailedSolving nv e) w, true)
  | None =>
      if bool_decide (run fl = "") then (print (LSucceeded nv) w, fail)
      else
        let '(fs, werr) := WriteDepTree vpath (soe_s soln) (w_fs w) in
        let w := emit (EvWriteDepTree vpath (soe_s soln) werr) fs w in
        match werr with
        | Some e => (print (LSkippingCheck nv e) w, true)
        | None =>
            let parts := strings_Split (run fl) " " in
            let '(fs, out, cerr) :=
              CombinedOutput (p_wd p) (hd "" parts) (tl parts) (w_fs w) in
            let w := emit (EvCommand (p_wd p) (hd "" parts) (tl parts) out cerr) fs w in
            let '(w, fail) :=
              match cerr with
              | Some e => (print (LFailedWith nv e out) w, true)
              | None => (print (LSucceeded nv) w, fail)
              end in
            (do_RemoveAll vpath w, fail)
        end
  end.

Definition check_loop (p : Prepared) (vpath : string) (solns : list solnOrErr)
    (st : World * bool) : World * bool :=
  foldl (fun st soln => check_one p vpath soln st) st solns.

(** The backup of an existing vendor directory: the world after it, the
    calls deferred to the return of [RunGTA], and the error when the
    backup fails. *)
Definition backup (wd vpath : string) (w : World)
    : World * list (World → World) * option error :=
  if nonempty (run fl) then
    let '(w, serr) := do_Stat vpath w in
    match serr with
    | None =>
        let '(w, rerr) := do_Rename vpath (filepath_Join wd "_origvendor") w in
        match rerr with
        | Some e => (w, [], Some (ErrBackup e))
        | None =>
            (w, [fun w => (do_Rename (filepath_Join wd "_origvendor") vpath w).1], None)
        end
    | Some _ => (w, [], None)
    end
  else (w, [], None).

Definition run_deferred (ds : list (World → World)) (w : World) : World :=
  foldr (fun d w => d w) w ds.

(** What a call of [RunGTA] leaves: the returned error, the outcomes of the
    solving loop and the world. *)
Record Result := mkResult {
  r_err : option error;
  r_solns : list solnOrErr;
  r_w : World
}.

(** [RunGTA(cmd, args)], started on the file system [fs].  The constraint
    the filter asks is [focus.Constraint], which holds [c] at that point. *)
Definition RunGTA (args : list string) (fs : FS) : ends Result :=
  let w := {| w_fs := fs; w_log := [] |} in
  match prepare args with
  | Err e => Returns {| r_err := Some e; r_solns := []; r_w := w |}
  | Ok p =>
      let vl := filterVersions (p_constraint p) (p_vlist p) in
      if bool_decide (length vl = 0) then
        Returns {| r_err := Some (ErrNoneMatched (p_root p) (length (p_vlist p)));
                   r_solns := []; r_w := w |}
      else
        let w := print (LChecking (p_root p) vl) w in
        st ← sweep p vl w;
        let solns := ss_solns st in
        let w := print LSpacer (ss_w st) in
        let vpath := filepath_Join (p_wd p) "vendor" in
        let '(w, deferred, early) := backup (p_wd p) vpath w in
        match early with
        | Some e => Returns {| r_err := Some e; r_solns := solns; r_w := w |}
        | None =>
            let '(w, fail) := check_loop p vpath solns (w, false) in
            let w := run_deferred deferred w in
            Returns {| r_err := if fail then Some ErrEncountered else None;
                       r_solns := solns; r_w := w |}
        end
  end.

(** [main]: the exit status of the process, and the world it leaves.  A
    panic of [RunGTA] is not recovered. *)
Definition main (args : list string) (fs : FS) : ends (nat * World) :=
  r ← RunGTA args fs;
  match r_err r with
  | Some e => Returns (1, print (LError e) (r_w r))
  | None => Returns (0, r_w r)
  end.

(** The world a call leaves, however it ends. *)
Definition final_world (e : ends Result) : World :=
  match e with
  | Returns r => r_w r
  | Panics w => w
  end.

(** The file systems a run goes through: a process that is stopped between
    two effects leaves the one of the last effect it finished. *)
Definition states_of (fs : FS) (r : Result) : list FS :=
  fs :: (w_log (r_w r)).*2.

(** The spec's words for the verdict: a solve error, or, when a command
    was asked for, a command that failed. *)
Definition command_failed (e : Event) : bool :=
  match e with
  | EvCommand _ _ _ _ (Some _) => true
  | _ => false
  end.

Definition tree_write_failed (e : Event) : bool :=
  match e with
  | EvWriteDepTree _ _ (Some _) => true
  | _ => false
  end.

Definition solve_failed (soln : solnOrErr) : bool :=
  bool_decide (is_Some (soe_err soln)).

Definition spec_verdict_fail (r : Result) : bool :=
  existsb solve_failed (r_solns r)
  || (nonempty (run fl) && existsb command_failed (w_log (r_w r)).*1).
(** The verdict the code computes: the spec's, or a tree that could not be
    written. *)
Definition verdict_fail (r : Result) : bool :=
  existsb solve_failed (r_solns r)
  || (nonempty (run fl)
      && existsb (fun e => tree_write_failed e || command_failed e)
           (w_log (r_w r)).*1).

(** A run that stopped on a set-up or backup error, before any verdict. *)
Definition aborted (r : Result) : bool :=
  match r_err r with
  | None | Some ErrEncountered => false
  | Some _ => true
  end.

(** The parameters the solver was called with, in order. *)
Definition solver_calls (log : list (Event * FS)) : list SolveParameters :=
  omap (fun e => match e.1 with EvSolve params _ => Some params | _ => None end) log.

Definition is_command (e : Event) : bool :=
  match e with
  | EvCommand _ _ _ _ _ => true
  | _ => false
  end.

(** The root manifest with the focal entry pinned to [v], and the outcome
    of solving against it. *)
Definition pin (p : Prepared) (v : Version) : simpleRootManifest :=
  {| c := match c (p_rm p) with
          | nilMap => nilMap
          | mkMap g =>
              mkMap (<[p_root p := with_Constraint (p_focus p) (VersionConstraint v)]> g)
          end;
     tc := tc (p_rm p); ovr := ovr (p_rm p); ig := ig (p_rm p) |}.

Definition outcome (p : Prepared) (v : Version) : solnOrErr :=
  solve (params_of p (pin p v)) v.

(** What the reporting loop may do for one outcome, from the file system
    [fs]: the events with the file systems they leave, the file system at
    the end, and whether the candidate failed. *)
Inductive candidate_run (p : Prepared) (vpath : string) (soln : solnOrErr) (fs : FS)
    : list (Event * FS) → FS → bool → Prop :=
| run_solve_failed e :
    soe_err soln = Some e →
    candidate_run p vpath soln fs
      [(EvPrint (LFailedSolving (p_root p, soe_v soln) e), fs)] fs true
| run_solved :
    soe_err soln = None → run fl = "" →
    candidate_run p vpath soln fs
      [(EvPrint (LSucceeded (p_root p, soe_v soln)), fs)] fs false
| run_write_failed fs1 e :
    soe_err soln = None → run fl ≠ "" →
    WriteDepTree vpath (soe_s soln) fs = (fs1, Some e) →
    candidate_run p vpath soln fs
      [(EvWriteDepTree vpath (soe_s soln) (Some e), fs1);
       (EvPrint (LSkippingCheck (p_root p, soe_v soln) e), fs1)] fs1 true
| run_command fs1 fs2 name args out cerr :
    soe_err soln = None → run fl ≠ "" →
    WriteDepTree vpath (soe_s soln) fs = (fs1, None) →
    name :: args = strings_Split (run fl) " " →
    CombinedOutput (p_wd p) name args fs1 = (fs2, out, cerr) →
    candidate_run p vpath soln fs
      [(EvWriteDepTree vpath (soe_s soln) None, fs1);
       (EvCommand (p_wd p) name args out cerr, fs2);
       (EvPrint match cerr with
                | None => LSucceeded (p_root p, soe_v soln)
                | Some e => LFailedWith (p_root p, soe_v soln) e out
                end, fs2);
       (EvRemoveAll vpath, os_RemoveAll vpath fs2)]
      (os_RemoveAll vpath fs2) (bool_decide (is_Some cerr)).

Inductive loop_run (p : Prepared) (vpath : string)
    : list solnOrErr → FS → list (list (Event * FS)) → FS → bool → Prop :=
| loop_done fs : loop_run p vpath [] fs [] fs false
| loop_next soln solns fs seg fs1 failed segs fs2 failed' :
    candidate_run p vpath soln fs seg fs1 failed →
    loop_run p vpath solns fs1 segs fs2 failed' →
    loop_run p vpath (soln :: solns) fs (seg :: segs) fs2 (failed || failed').

(** Whether the line of the verbose report for a project can be built, and
    whether the whole report that follows a solve attempt can: without
    [--verbose] and after a failed attempt no line of a project is built. *)
Definition printable (lp : LockedProject) : bool :=
  bool_decide (is_Some (verbose_project lp)).

Definition report_ok (soe : solnOrErr) : bool :=
  negb (verbose fl) || bool_decide (is_Some (soe_err soe))
  || forallb printable (default [] (soe_s soe)).

Definition sweep_ok (p : Prepared) (vl : list Version) : bool :=
  forallb (fun v => report_ok (outcome p v)) vl.

(** The lines of a report that can be built. *)
Definition report_lines (soe : solnOrErr) : list Line :=
  match soe_err soe with
  | None =>
      LSuccess :: (if verbose fl
                   then LProject <$> omap verbose_project (default [] (soe_s soe))
                   else [])
  | Some e => LFailed :: (if verbose fl then [LError e] else [])
  end.

(** The events of one round of the solving loop. *)
Definition sweep_events (p : Prepared) (fs : FS) (v : Version) : list (Event * FS) :=
  (EvPrint (LLooking (p_root p) v), fs)
  :: (EvSolve (params_of p (pin p v)) (soe_err (outcome p v)), fs)
  :: ((fun l => (EvPrint l, fs)) <$> report_lines (outcome p v)).

(** The log up to the end of the solving loop. *)
Definition sweep_log (p : Prepared) (fs : FS) (vl : list Version) : list (Event * FS) :=
  (EvPrint (LChecking (p_root p) vl), fs)
  :: concat (sweep_events p fs <$> vl) ++ [(EvPrint LSpacer, fs)].

(** How the reporting loop is wrapped, from the file system [fs]: the events
    before it and the file system it starts on, and, for the file system
    it ends on, the events after it and the file system the run leaves. *)
Inductive wrapped (wd : string) (fs : FS)
    : list (Event * FS) → FS → FS → list (Event * FS) → FS → Prop :=
| wrap_no_command fs2 :
    run fl = "" →
    wrapped wd fs [] fs fs2 [] fs2
| wrap_no_vendor fs2 e :
    run fl ≠ "" →
    os_Stat (filepath_Join wd "vendor") fs = Some e →
    wrapped wd fs [(EvStat (filepath_Join wd "vendor") (Some e), fs)] fs fs2 [] fs2
| wrap_backup fs1 fs2 fs3 rerr :
    run fl ≠ "" →
    os_Stat (filepath_Join wd "vendor") fs = None →
    os_Rename (filepath_Join wd "vendor") (filepath_Join wd "_origvendor") fs
      = (fs1, None) →
    os_Rename (filepath_Join wd "_origvendor") (filepath_Join wd "vendor") fs2
      = (fs3, rerr) →
    wrapped wd fs
      [(EvStat (filepath_Join wd "vendor") None, fs);
       (EvRename (filepath_Join wd "vendor") (filepath_Join wd "_origvendor") None, fs1)]
      fs1 fs2
      [(EvRename (filepath_Join wd "_origvendor") (filepath_Join wd "vendor") rerr, fs3)]
      fs3.
(** An event that leaves the file system [fs] and does not go to it. *)
Definition quiet (fs : FS) (e : Event * FS) : Prop :=
  touches_fs e.1 = false ∧ e.2 = fs.

(** A world that grew out of [w] by events that do not go to the file
    system. *)
Definition grown (w w' : World) : Prop :=
  w_fs w' = w_fs w
  ∧ ∃ l, w_log w' = w_log w ++ l ∧ Forall (quiet (w_fs w)) l.


End RunGTA.

(** ** A small concrete setting

    A project at [/go/src/app] that depends on [github.com/foo/bar], which
    has three tagged versions.  The solver, the tree writer and the command
    are driven by three switches. *)

Module Scenario.

Definition foo : ProjectRoot := "github.com/foo/bar".
Definition v1 : Version := Paired (NewVersion "v1") "1111111aaaaaaa".
Definition v2 : Version := Paired (NewVersion "v2") "2222222bbbbbbb".
Definition v3 : Version := Paired (NewVersion "v3") "3333333ccccccc".

Definition unpaired (v : Version) : option UnpairedVersion :=
  match v with
  | Revision _ => None
  | Unpaired u => Some u
  | Paired u _ => Some u
  end.

Definition matches (cs : Constraint) (v : Version) : bool :=
  match cs with
  | Any => true
  | SemverConstraint _ => false
  | VersionConstraint (Revision r) =>
      match v with
      | Revision r' | Paired _ r' => bool_decide (r = r')
      | Unpaired _ => false
      end
  | VersionConstraint (Unpaired u) => bool_decide (unpaired v = Some u)
  | VersionConstraint (Paired u r) => bool_decide (v = Paired u r)
  end.

Definition dep (root : ProjectRoot) (cs : Constraint) : ProjectConstraint :=
  {| Ident := {| PI_ProjectRoot := root; NetworkName := "" |};
     PC_Constraint := Some cs |}.

Definition manifest : Manifest :=
  {| DependencyConstraints :=
       [dep "github.com/baz/qux" Any; dep foo (SemverConstraint "^1.0.0")];
     TestDependencyConstraints := [dep "github.com/test/kit" Any] |}.

(** The version the solver is asked to pin [foo] to. *)
Definition pinned (params : SolveParameters) : option Constraint :=
  pc ← map_lookup (c (SP_Manifest params)) foo; PC_Constraint pc.

Definition tree : node := Dir [("foo.go", File "package foo")].
Definition written : node := Dir [("github.com", Dir [])].

(** The setting for a GOPATH, a catalog and a manifest. *)
Definition setting (gopath : string) (catalog : list Version) (m : Manifest)
    (rejected : list Version) (write_ok command_ok : bool)
    : Collaborators :=
  {| os_Getwd := Ok "/go/src/app";
     GOPATH := gopath;
     NewSourceManager := None;
     DeduceProjectRoot := fun pkg => Ok pkg;
     ListVersions := fun _ => Ok catalog;
     SortForUpgrade := fun vs => vs;
     NewSemverConstraint := fun expr => Ok (SemverConstraint expr);
     Matches := matches;
     DeriveManifestAndLock := fun _ _ => Ok (Some m, None);
     Prepare := fun _ => None;
     Solve := fun params =>
       match pinned params with
       | Some (VersionConstraint v) =>
           if bool_decide (v ∈ rejected) then Err (ErrMsg "no solution")
           else Ok [{| LP_Ident := {| PI_ProjectRoot := foo; NetworkName := "" |};
                       LP_Version := v |}]
       | _ => Err (ErrMsg "focus not pinned")
       end;
     WriteDepTree := fun path _ fs =>
       if write_ok then (<[path := written]> fs, None)
       else (fs, Some (ErrMsg "export failed"));
     CombinedOutput := fun _ _ _ fs =>
       if command_ok then (fs, "ok", None)
       else (fs, "FAIL", Some (ErrMsg "exit status 1")) |}.

Definition collaborators : list Version → bool → bool → Collaborators :=
  setting "/go" [v1; v2; v3] manifest.

Definition flags (cmd : string) : Flags :=
  {| run := cmd; branch := ""; semver := ""; version := ""; verbose := false |}.

Definition verbose_flags (cmd : string) : Flags :=
  {| run := cmd; branch := ""; semver := ""; version := ""; verbose := true |}.

(** A version whose revision has four bytes, and a catalog with it. *)
Definition v2short : Version := Paired (NewVersion "v2") "2222".

Definition short_catalog : list Version → bool → bool → Collaborators :=
  setting "/go" [v1; v2short; v3] manifest.

(** A manifest with a test-only constraint on the focal dependency. *)
Definition test_manifest : Manifest :=
  {| DependencyConstraints := [dep "github.com/baz/qux" Any];
     TestDependencyConstraints := [dep foo (SemverConstraint "^1.0.0")] |}.

Definition test_focal : list Version → bool → bool → Collaborators :=
  setting "/go" [v1; v2; v3] test_manifest.

(** A GOPATH written with a slash at its end. *)
Definition slash_gopath : list Version → bool → bool → Collaborators :=
  setting "/go/" [v1; v2; v3] manifest.

Definition vendor : string := "/go/src/app/vendor".
Definition origvendor : string := "/go/src/app/_origvendor".

Definition disk : FS := {[ vendor := tree ]}.

(** The run on [disk] for a command line [cmd], and what it prepares; the
    values are computed once. *)
Definition no_prepared : Prepared :=
  {| p_root := ""; p_wd := ""; p_vlist := []; p_constraint := Any;
     p_rm := prepManifest None;
     p_focus := {| Ident := {| PI_ProjectRoot := ""; NetworkName := "" |};
                   PC_Constraint := None |};
     p_lock := None; p_importroot := "" |}.

Definition no_result : Result :=
  {| r_err := None; r_solns := []; r_w := {| w_fs := ∅; w_log := [] |} |}.

Definition returned_or (r : Result) (e : ends Result) : Result :=
  match e with
  | Returns r' => r'
  | Panics _ => r
  end.

Definition prepared : Prepared :=
  Eval vm_compute in
    match @prepare (collaborators [v2] true true) (flags "") [foo] with
    | Ok p => p
    | Err _ => no_prepared
    end.

Definition quiet_result : Result :=
  Eval vm_compute in
    returned_or no_result (@RunGTA (collaborators [v2] true true) (flags "") [foo] disk).

Definition checked_result : Result :=
  Eval vm_compute in
    returned_or no_result
      (@RunGTA (collaborators [v2] true true) (flags "go test") [foo] disk).

Definition unwritten_result : Result :=
  Eval vm_compute in
    returned_or no_result
      (@RunGTA (collaborators [] false true) (flags "go test") [foo] disk).


Definition short_prepared : Prepared :=
  Eval vm_compute in
    match @prepare (short_catalog [] true true) (verbose_flags "") [foo] with
    | Ok p => p
    | Err _ => no_prepared
    end.

Definition test_focal_result : Result :=
  Eval vm_compute in
    returned_or no_result (@RunGTA (test_focal [] true true) (flags "") [foo] disk).

Definition exact_prepared : Prepared :=
  Eval vm_compute in
    match @prepare (collaborators [] true true)
            {| run := ""; branch := ""; semver := ""; version := "v2"; verbose := false |}
            [foo] with
    | Ok p => p
    | Err _ => no_prepared
    end.

(** A normalizer that knows one repository: every path under [foo] has the
    root [foo]. *)
Definition normalize (path : string) : string * string :=
  match strip_prefix foo path with
  | Some rest => (foo, rest)
  | None => (path, "")
  end.

Definition godeps : godep.Godeps :=
  {| godep.G_ImportPath := "github.com/me/app"; godep.GoVersion := "go1.6";
     godep.Packages := [];
     godep.Deps :=
       [ {| godep.ImportPath := "github.com/foo/bar/sub"; godep.Comment := "";
            godep.Rev := "1111111aaaaaaa" |};
         {| godep.ImportPath := "github.com/baz/qux"; godep.Comment := "";
            godep.Rev := "4444444ddddddd" |};
         {| godep.ImportPath := "github.com/foo/bar"; godep.Comment := "";
            godep.Rev := "2222222bbbbbbb" |} ] |}.

End Scenario.


(** ** More of the sources *)

(** [godep.Has(dir)]: whether [os.Stat] finds [dir/Godeps/Godeps.json];
    [stat] is the error of that call. *)
Definition godep_Has (stat : option error) : bool :=
  match stat with
  | None => true
  | Some _ => false
  end.

(** The loop of [godep.Parse] over [godeps.Deps]; [seen[pkg]] reads [false]
    for a key that is not in the map. *)
Fixpoint godep_Parse_loop (NormalizeName : string → string * string)
    (deps : list godep.Dependency) (seen : gmap string bool)
    (buf : list godep.cfg_Dependency) : list godep.cfg_Dependency :=
  match deps with
  | [] => buf
  | d :: deps' =>
      let pkg := (NormalizeName (godep.ImportPath d)).1 in
      if negb (default false (seen !! pkg)) then
        godep_Parse_loop NormalizeName deps' (<[pkg := true]> seen)
          (buf ++ [{| godep.Name := pkg; godep.Version := godep.Rev d |}])
      else godep_Parse_loop NormalizeName deps' seen buf
  end.

(** [godep.Parse(dir)].  [stat] is the error of [os.Stat] on the file and
    [file] what [os.Open] and the JSON decoder make of it. *)
Definition godep_Parse (NormalizeName : string → string * string)
    (stat : option error) (file : res godep.Godeps)
    : list godep.cfg_Dependency * option error :=
  match stat with
  | Some _ => ([], None)
  | None =>
      match file with
      | Err e => ([], Some e)
      | Ok godeps => (godep_Parse_loop NormalizeName (godep.Deps godeps) ∅ [], None)
      end
  end.

(** The candidate a line of the final report is about. *)
Definition reported (e : Event * FS) : option NameVersion :=
  match e.1 with
  | EvPrint (LFailedSolving nv _) | EvPrint (LSucceeded nv)
  | EvPrint (LSkippingCheck nv _) | EvPrint (LFailedWith nv _ _) => Some nv
  | _ => None
  end.

Definition is_rename (e : Event) : bool :=
  match e with
  | EvRename _ _ _ => true
  | _ => false
  end.

(** Events of the reporting loop that write, use or remove a tree. *)
Definition handles_tree (e : Event) : bool :=
  match e with
  | EvWriteDepTree _ _ _ | EvCommand _ _ _ _ _ | EvRemoveAll _ => true
  | _ => false
  end.

(** A second scenario: the backup path is taken by a directory. *)
Definition blocked_disk : FS :=
  {[ Scenario.vendor := Scenario.tree; Scenario.origvendor := Dir [] ]}.

(** The vendor directory with a file that has a path of its own. *)
Definition nested_disk : FS :=
  {[ Scenario.vendor := Scenario.tree;
     "/go/src/app/vendor/foo.go" := File "package foo" ]}.

(** A third one: no vendor directory to begin with. *)
Definition bare_result : Result :=
  Eval vm_compute in
    Scenario.returned_or Scenario.no_result
      (@RunGTA (Scenario.collaborators [Scenario.v2] true true)
         (Scenario.flags "go test") [Scenario.foo] ∅).

(** A fourth one: a source file beside the vendor directory, and a
    command that fails. *)
Definition other_disk : FS :=
  {[ Scenario.vendor := Scenario.tree;
     "/go/src/app/main.go" := File "package main" ]}.

Definition other_result : Result :=
  Eval vm_compute in
    Scenario.returned_or Scenario.no_result
      (@RunGTA (Scenario.collaborators [Scenario.v2] true false)
         (Scenario.flags "go test") [Scenario.foo] other_disk).

(** * Properties *)

(** ** Strings and paths *)

Lemma append_inj_r (a b1 b2 : string) : a +:+ b1 = a +:+ b2 → b1 = b2.
Proof. induction a as [|x a IH]; cbn; [done|]. intros [= Heq]. by apply IH. Qed.

Lemma append_assoc (a b d : string) : (a +:+ b) +:+ d = a +:+ b +:+ d.
Proof.
  induction a as [|x a IH]; [done|].
  change (String x ((a +:+ b) +:+ d) = String x (a +:+ b +:+ d)). by rewrite IH.
Qed.

Lemma append_nil_r (a : string) : a +:+ "" = a.
Proof.
  induction a as [|x a IH]; [done|].
  change (String x (a +:+ "") = String x a). by rewrite IH.
Qed.

Lemma append_nil_inv (a b : string) : a +:+ b = "" → b = "".
Proof. by destruct a. Qed.

Lemma strip_prefix_cons (a b : ascii) (p s : string) :
  strip_prefix (String a p) (String b s)
  = if Ascii.eqb a b then strip_prefix p s else None.
Proof. done. Qed.

Lemma strip_prefix_app (a b : string) : strip_prefix a (a +:+ b) = Some b.
Proof.
  induction a as [|x a IH]; [by destruct b|].
  change (String x a +:+ b) with (String x (a +:+ b)).
  by rewrite strip_prefix_cons, Ascii.eqb_refl.
Qed.

Lemma strip_prefix_Some (a s b : string) : strip_prefix a s = Some b → s = a +:+ b.
Proof.
  revert s. induction a as [|x a IH]; intros s.
  - simpl. by intros [= ->].
  - destruct s as [|y s]; [done|]. rewrite strip_prefix_cons.
    destruct (Ascii.eqb x y) eqn:Hxy; [|done].
    apply Ascii.eqb_eq in Hxy as ->. intros Hs. by rewrite (IH _ Hs).
Qed.

Lemma strip_prefix_append (a b s : string) :
  strip_prefix (a +:+ b) s = strip_prefix a s ≫= strip_prefix b.
Proof.
  revert s. induction a as [|x a IH]; intros s; [by destruct s, b|].
  destruct s as [|y s]; [done|].
  change (String x a +:+ b) with (String x (a +:+ b)).
  rewrite !strip_prefix_cons. destruct (Ascii.eqb x y); [apply IH|done].
Qed.

Lemma strings_Split_nonempty (s : string) (sep : ascii) :
  ∃ piece pieces, strings_Split s sep = piece :: pieces.
Proof.
  destruct s as [|a s]; [by eexists _, _|]. cbn [strings_Split].
  destruct (Ascii.eqb a sep); [by eexists _, _|].
  destruct (strings_Split s sep); by eexists _, _.
Qed.

(** Cutting at a separator cuts the two sides on their own. *)
Lemma strings_Split_app (a b : string) (sep : ascii) :
  strings_Split (a +:+ String sep b) sep = strings_Split a sep ++ strings_Split b sep.
Proof.
  induction a as [|x a IH].
  - change ("" +:+ String sep b) with (String sep b).
    cbn [strings_Split]. by rewrite Ascii.eqb_refl.
  - change (String x a +:+ String sep b) with (String x (a +:+ String sep b)).
    cbn [strings_Split]. rewrite IH.
    destruct (Ascii.eqb x sep); [done|].
    by destruct (strings_Split_nonempty a sep) as (piece & pieces & ->).
Qed.

Lemma strings_Split_whole (s : string) (sep : ascii) :
  occurrences sep s = 0 → strings_Split s sep = [s].
Proof.
  induction s as [|a s IH]; [done|]. cbn [strings_Split occurrences].
  destruct (Ascii.eqb a sep); [done|]. intros Hs. by rewrite IH.
Qed.

Lemma strings_Join_snoc (pieces : list string) (piece : string) (sep : ascii) :
  strings_Join (pieces ++ [piece]) sep
  = (match pieces with
     | [] => ""
     | _ => strings_Join pieces sep +:+ String sep ""
     end) +:+ piece.
Proof.
  induction pieces as [|x pieces IH]; [done|].
  destruct pieces as [|y pieces].
  - exact (eq_sym (append_assoc x (String sep "") piece)).
  - change (strings_Join ((x :: y :: pieces) ++ [piece]) sep)
      with (x +:+ String sep (strings_Join ((y :: pieces) ++ [piece]) sep)).
    rewrite IH.
    change (strings_Join (x :: y :: pieces) sep)
      with (x +:+ String sep (strings_Join (y :: pieces) sep)).
    by rewrite !append_assoc.
Qed.

(** Joining a directory and a plain name puts the name at the end: the
    result is the name after a prefix that the directory alone decides. *)
Lemma filepath_Join_plain (dir : string) :
  ∃ pre, ∀ name, plain name → filepath_Join dir name = pre +:+ name.
Proof.
  assert (∀ rooted names name, plain name →
            clean_step rooted names name = names ++ [name]) as Hstep.
  { intros rooted names name (H1 & H2 & H3 & _). unfold clean_step.
    by rewrite !bool_decide_false. }
  unfold filepath_Join. case_bool_decide as Hdir.
  - exists "". intros name Hname. pose proof Hname as (Hne & _ & _ & Hsep).
    rewrite bool_decide_false by done. unfold filepath_Clean.
    rewrite (strings_Split_whole _ _ Hsep). cbn [foldl]. rewrite Hstep by done.
    assert (bool_decide (is_Some (strip_prefix "/" name)) = false) as ->.
    { apply bool_decide_eq_false. destruct name as [|a name]; [done|].
      rewrite strip_prefix_cons. cbn [occurrences] in Hsep. rewrite Ascii.eqb_sym.
      destruct (Ascii.eqb a "/"); [done|]. by intros [? ?]. }
    cbn. by rewrite bool_decide_false.
  - set (rooted := bool_decide (is_Some (strip_prefix "/" dir))).
    set (names := foldl (clean_step rooted) [] (strings_Split dir "/")).
    exists ((if rooted then "/" else "")
            +:+ match names with
                | [] => ""
                | _ => strings_Join names "/" +:+ "/"
                end).
    intros name Hname. pose proof Hname as (Hne & _ & _ & Hsep).
    unfold filepath_Clean.
    assert (bool_decide (is_Some (strip_prefix "/" (dir +:+ "/" +:+ name))) = rooted)
      as ->.
    { unfold rooted. destruct dir as [|a dir]; [done|].
      change (String a dir +:+ "/" +:+ name) with (String a (dir +:+ "/" +:+ name)).
      rewrite !strip_prefix_cons. by destruct (Ascii.eqb "/" a). }
    change (dir +:+ "/" +:+ name) with (dir +:+ String "/" name).
    rewrite strings_Split_app, foldl_app, (strings_Split_whole _ _ Hsep).
    cbn [foldl]. fold names. rewrite Hstep by done.
    rewrite strings_Join_snoc, <- append_assoc.
    rewrite bool_decide_false; [done|].
    intros Hnil. by apply append_nil_inv in Hnil.
Qed.

Lemma plain_vendor : plain "vendor".
Proof. by split_and!. Qed.

Lemma plain_origvendor : plain "_origvendor".
Proof. by split_and!. Qed.

(** ** Paths within a path *)

Lemma within_refl (p : string) : within p p = true.
Proof.
  unfold within. rewrite <- (append_nil_r p) at 2. by rewrite strip_prefix_app.
Qed.

Lemma within_append (p rest : string) :
  within p (p +:+ rest)
  = match rest with
    | EmptyString => true
    | String a _ => Ascii.eqb a "/"
    end.
Proof. unfold within. by rewrite strip_prefix_app. Qed.

Lemma within_inv (p q : string) :
  within p q = true → ∃ rest, q = p +:+ rest ∧ strip_prefix p q = Some rest.
Proof.
  unfold within. destruct (strip_prefix p q) as [rest|] eqn:Hs; [|done].
  intros _. exists rest. split; [by apply strip_prefix_Some|done].
Qed.

(** The vendor path and the backup path are siblings: no path is within
    both. *)
Lemma vendor_backup_apart (wd q : string) :
  within (filepath_Join wd "vendor") q = true →
  within (filepath_Join wd "_origvendor") q = true → False.
Proof.
  destruct (filepath_Join_plain wd) as [pre Hpre].
  rewrite (Hpre _ plain_vendor), (Hpre _ plain_origvendor).
  unfold within. rewrite !strip_prefix_append.
  destruct (strip_prefix pre q) as [s|]; [|done]. cbn [mbind option_bind].
  destruct s as [|a s]; [done|]. rewrite !strip_prefix_cons.
  destruct (Ascii.eqb "v" a) eqn:Ha; [|done].
  apply Ascii.eqb_eq in Ha as <-. done.
Qed.

Lemma vendor_backup_distinct (wd : string) :
  filepath_Join wd "vendor" ≠ filepath_Join wd "_origvendor".
Proof.
  intros Heq. apply (vendor_backup_apart wd (filepath_Join wd "vendor")).
  - apply within_refl.
  - rewrite <- Heq. apply within_refl.
Qed.

Lemma vendor_not_in_backup (wd q : string) :
  within (filepath_Join wd "vendor") q = true →
  within (filepath_Join wd "_origvendor") q = false.
Proof.
  intros Hv. destruct (within (filepath_Join wd "_origvendor") q) eqn:Hb; [|done].
  by destruct (vendor_backup_apart wd q).
Qed.

Lemma backup_not_in_vendor (wd q : string) :
  within (filepath_Join wd "_origvendor") q = true →
  within (filepath_Join wd "vendor") q = false.
Proof.
  intros Hb. destruct (within (filepath_Join wd "vendor") q) eqn:Hv; [|done].
  by destruct (vendor_backup_apart wd q).
Qed.

(** ** The file system *)

Lemma os_RemoveAll_lookup (p q : string) (fs : FS) :
  os_RemoveAll p fs !! q = if within p q then None else fs !! q.
Proof.
  unfold os_RemoveAll. rewrite map_lookup_filter. cbn.
  destruct (fs !! q) as [n|]; cbn; [|by destruct (within p q)].
  destruct (within p q); [by rewrite option_guard_False|by rewrite option_guard_True].
Qed.

Section rename_facts.
Variables old new : string.

(** What was within [old] is found within [new]. *)
Lemma renamed_moved (fs : FS) (rest : string) :
  within old (old +:+ rest) = true →
  renamed old new fs !! (new +:+ rest) = fs !! (old +:+ rest).
Proof.
  intros Hin. unfold renamed.
  assert (within new (new +:+ rest) = true) as Hnew
    by (by rewrite within_append in *).
  set (l := _ <$> map_to_list _).
  assert (∀ y, (new +:+ rest, y) ∈ l → fs !! (old +:+ rest) = Some y) as Hl.
  { intros y Hy. apply list_elem_of_fmap in Hy as ([k n] & [= Hk ->] & Hkn).
    apply elem_of_map_to_list, map_lookup_filter_Some in Hkn as [Hkn Hw].
    cbn in *. apply within_inv in Hw as (rest' & -> & Hs).
    unfold moved_to in Hk. rewrite Hs in Hk. cbn in Hk.
    by apply append_inj_r in Hk as ->. }
  destruct (fs !! (old +:+ rest)) as [n|] eqn:Hfs.
  - apply lookup_union_Some_l, elem_of_list_to_map_1'.
    + intros y Hy. apply Hl in Hy. congruence.
    + apply list_elem_of_fmap. exists (old +:+ rest, n). split.
      * unfold moved_to. cbn [fst snd]. by rewrite strip_prefix_app.
      * by apply elem_of_map_to_list, map_lookup_filter_Some.
  - apply lookup_union_None. split.
    + apply not_elem_of_list_to_map_1. intros Hk.
      apply list_elem_of_fmap in Hk as ([k y] & Heq & Hky). cbn [fst] in Heq.
      subst k. by apply Hl in Hky.
    + by rewrite os_RemoveAll_lookup, Hnew.
Qed.

(** Nothing stays within [old], and what is neither within [old] nor
    within [new] is left alone. *)
Lemma renamed_other (fs : FS) (q : string) :
  within new q = false →
  renamed old new fs !! q = if within old q then None else fs !! q.
Proof.
  intros Hnew. unfold renamed. rewrite lookup_union_r.
  - by rewrite !os_RemoveAll_lookup, Hnew.
  - apply not_elem_of_list_to_map_1. intros Hk.
    apply list_elem_of_fmap in Hk as ([k y] & Heq & Hky). cbn [fst] in Heq.
    subst k. apply list_elem_of_fmap in Hky as ([k' n] & [= Heq ->] & Hkn).
    rewrite Heq in Hnew.
    apply elem_of_map_to_list, map_lookup_filter_Some in Hkn as [_ Hw].
    cbn [fst] in Hw. pose proof Hw as Hw'.
    apply within_inv in Hw' as (rest & -> & Hs).
    unfold moved_to in Hnew. cbn [fst] in Hnew. rewrite Hs in Hnew. cbn [default] in Hnew.
    rewrite within_append in Hnew, Hw. unfold id in Hnew. congruence.
Qed.

Lemma os_Rename_failed (fs fs' : FS) (e : error) :
  os_Rename old new fs = (fs', Some e) → fs' = fs.
Proof. unfold os_Rename. repeat case_match; by intros [= <-]. Qed.

Lemma os_Rename_done (fs fs' : FS) :
  os_Rename old new fs = (fs', None) → fs' = renamed old new fs.
Proof. unfold os_Rename. repeat case_match; by intros [= <-]. Qed.

(** A path that is neither within [old] nor within [new] is left alone. *)
Lemma os_Rename_frame (q : string) (fs fs' : FS) (e : option error) :
  within old q = false → within new q = false →
  os_Rename old new fs = (fs', e) → fs' !! q = fs !! q.
Proof.
  intros Ho Hn Hren. destruct e as [e|].
  - by apply os_Rename_failed in Hren as ->.
  - apply os_Rename_done in Hren as ->. by rewrite renamed_other, Ho.
Qed.
End rename_facts.

(** ** Filtering a list *)

Lemma filter_all {A} (P : A → Prop) `{∀ x, Decision (P x)} (l : list A) :
  Forall P l → filter P l = l.
Proof.
  induction 1 as [|x l Hx _ IH]; [done|]. by rewrite filter_cons_True, IH.
Qed.

Lemma filter_none {A} (P : A → Prop) `{∀ x, Decision (P x)} (l : list A) :
  (∀ x, x ∈ l → ¬ P x) → filter P l = [].
Proof.
  induction l as [|x l IH]; intros Hl; [done|].
  rewrite filter_cons_False by (apply Hl; left).
  apply IH. intros y Hy. apply Hl. by right.
Qed.



(** ** The constraint flags *)

Lemma constraint_cases_exhaustive (fl : Flags) :
  (bool_decide (branch fl = "") && bool_decide (semver fl = "")
   && bool_decide (version fl = "")) = false →
  nonempty (branch fl) = false →
  nonempty (version fl) = false →
  nonempty (semver fl) = true.
Proof.
  unfold nonempty. intros Hall Hb Hv.
  apply bool_decide_eq_false in Hb, Hv.
  destruct (decide (branch fl = "")) as [Hb'|]; [|done].
  destruct (decide (version fl = "")) as [Hv'|]; [|done].
  rewrite Hb', Hv' in Hall. cbn in Hall.
  rewrite andb_true_r in Hall.
  apply bool_decide_eq_false in Hall. by apply bool_decide_eq_true.
Qed.

(** ** The baseline builder *)

Lemma index_by_root_lookup (ds : list ProjectConstraint)
    (mp : gmap string ProjectConstraint) (id : string) :
  foldl (fun mp d => <[PI_ProjectRoot (Ident d) := d]> mp) mp ds !! id
  = match last (filter (fun d => PI_ProjectRoot (Ident d) = id) ds) with
    | Some d => Some d
    | None => mp !! id
    end.
Proof.
  revert mp. induction ds as [|d ds IH]; intros mp; [done|].
  cbn [foldl]. rewrite IH, filter_cons.
  destruct (decide (PI_ProjectRoot (Ident d) = id)) as [<-|Hne].
  - destruct (filter _ ds) as [|d' l] eqn:Hf; cbn.
    + by rewrite lookup_insert_eq.
    + by destruct (last (d' :: l)) eqn:Hl; [|apply last_None in Hl].
  - destruct (last (filter _ ds)); [done|]. by rewrite lookup_insert_ne.
Qed.

Lemma index_by_root_keys (ds : list ProjectConstraint) (id : string)
    (d : ProjectConstraint) :
  index_by_root ds !! id = Some d → PI_ProjectRoot (Ident d) = id.
Proof.
  unfold index_by_root. rewrite index_by_root_lookup, lookup_empty.
  destruct (last _) as [d'|] eqn:Hl; [|done].
  intros [= ->]. apply last_Some in Hl as [l Hl].
  assert (d ∈ filter (λ d0, PI_ProjectRoot (Ident d0) = id) ds) as Hin
    by (rewrite Hl; set_solver).
  by apply list_elem_of_filter in Hin as [? _].
Qed.

(** C5, counterexample: with two entries for one identifier, the entry the
    builder keeps is the second one, not the first. *)
Lemma prepManifest_first_not_kept :
  let d1 := Scenario.dep Scenario.foo Any in
  let d2 := Scenario.dep Scenario.foo (SemverConstraint "^2.0.0") in
  let m := {| DependencyConstraints := [d1; d2]; TestDependencyConstraints := [] |} in
  head (filter (fun d => PI_ProjectRoot (Ident d) = Scenario.foo) (DependencyConstraints m))
    = Some d1
  ∧ map_lookup (c (prepManifest (Some m))) Scenario.foo = Some d2
  ∧ map_lookup (c (prepManifest (Some m))) Scenario.foo ≠ Some d1.
Proof. vm_compute. split_and!; [done|done|discriminate]. Qed.

(** C5, amended: for every manifest and identifier, the entry the builder
    keeps is the last one the manifest lists for that identifier, unchanged,
    in the normal group and in the test-only group alike; earlier entries for
    it are overwritten. *)
Theorem prepManifest_keeps_last (m : Manifest) (id : string) :
  map_lookup (c (prepManifest (Some m))) id
    = last (filter (fun d => PI_ProjectRoot (Ident d) = id) (DependencyConstraints m))
  ∧ map_lookup (tc (prepManifest (Some m))) id
    = last (filter (fun d => PI_ProjectRoot (Ident d) = id) (TestDependencyConstraints m)).
Proof.
  cbn. unfold index_by_root. rewrite !index_by_root_lookup, !lookup_empty.
  split; by destruct (last _).
Qed.

Lemma prepManifest_not_nil (m : option Manifest) :
  ∃ g, c (prepManifest m) = mkMap g
       ∧ ∀ id d, g !! id = Some d → PI_ProjectRoot (Ident d) = id.
Proof.
  destruct m as [m|]; cbn; eexists; (split; [done|]).
  - apply index_by_root_keys.
  - intros id d. by rewrite lookup_empty.
Qed.

(** ** The solving loop *)

Section sweep_facts.
Context `{Collaborators}.
Variable fl : Flags.

Lemma prints_log (ls : list Line) (w : World) :
  prints ls w
  = {| w_fs := w_fs w; w_log := w_log w ++ ((fun l => (EvPrint l, w_fs w)) <$> ls) |}.
Proof.
  revert w. induction ls as [|l ls IH]; intros w; cbn.
  - rewrite app_nil_r. by destruct w.
  - unfold prints in IH. rewrite IH. cbn. by rewrite <- app_assoc.
Qed.

Lemma prints_cons (l : Line) (ls : list Line) (w : World) :
  prints (l :: ls) w = prints ls (print l w).
Proof. done. Qed.

Lemma grown_refl (w : World) : grown w w.
Proof. split; [done|]. exists []. by rewrite app_nil_r. Qed.

Lemma grown_trans (w1 w2 w3 : World) : grown w1 w2 → grown w2 w3 → grown w1 w3.
Proof.
  intros (Hfs1 & l1 & Hl1 & Hq1) (Hfs2 & l2 & Hl2 & Hq2).
  split; [congruence|]. exists (l1 ++ l2). split.
  - by rewrite Hl2, Hl1, <- app_assoc.
  - apply Forall_app. split; [done|]. by rewrite <- Hfs1.
Qed.

Lemma grown_emit (e : Event) (w : World) :
  touches_fs e = false → grown w (emit e (w_fs w) w).
Proof. intros He. split; [done|]. exists [(e, w_fs w)]. by repeat constructor. Qed.

Lemma grown_prints (ls : list Line) (w : World) : grown w (prints ls w).
Proof.
  rewrite prints_log. split; [done|]. eexists. split; [done|].
  by apply Forall_fmap, Forall_true.
Qed.

Lemma forallb_false_elem {A} (f : A → bool) (l : list A) :
  forallb f l = false ↔ ∃ x, x ∈ l ∧ f x = false.
Proof.
  induction l as [|a l IH]; cbn.
  - split; [done|]. intros (x & Hx & _). by apply elem_of_nil in Hx.
  - rewrite andb_false_iff, IH. split.
    + intros [Ha|(x & Hx & Hf)]; [exists a; split; [left|done]|].
      exists x. split; [by right|done].
    + intros (x & Hx & Hf). apply elem_of_cons in Hx as [->|Hx]; [by left|].
      right. by exists x.
Qed.

Lemma slice7_None (s : string) : slice7 s = None ↔ String.length s < 7.
Proof. unfold slice7. case_bool_decide; split; (done || lia). Qed.

Lemma verbose_project_None (lp : LockedProject) :
  verbose_project lp = None
  ↔ ∃ r, version_revision (LP_Version lp) = Some r ∧ String.length r < 7.
Proof.
  unfold verbose_project. destruct (LP_Version lp) as [r|u|u r]; cbn.
  - destruct (slice7 r) as [short|] eqn:Hs; cbn.
    + split; [done|]. intros (r' & [= <-] & Hlt).
      apply slice7_None in Hlt. congruence.
    + split; [|done]. intros _. exists r. split; [done|]. by apply slice7_None.
  - split; [done|]. by intros (r' & ? & _).
  - destruct (slice7 r) as [short|] eqn:Hs; cbn.
    + split; [done|]. intros (r' & [= <-] & Hlt).
      apply slice7_None in Hlt. congruence.
    + split; [|done]. intros _. exists r. split; [done|]. by apply slice7_None.
Qed.

(** The line of a project cannot be built exactly when the version of the
    project carries a revision of fewer than seven bytes. *)
Lemma printable_false (lp : LockedProject) :
  printable lp = false
  ↔ ∃ r, version_revision (LP_Version lp) = Some r ∧ String.length r < 7.
Proof.
  unfold printable. by rewrite bool_decide_eq_false, <- eq_None_not_Some,
    verbose_project_None.
Qed.

(** The verbose report of a solution: every line is printed, or it stops
    with a panic at the first line that cannot be built. *)
Lemma verbose_report_spec (projects : list LockedProject) (w : World) :
  if forallb printable projects
  then verbose_report projects w
       = Returns (prints (LProject <$> omap verbose_project projects) w)
  else ∃ w', verbose_report projects w = Panics w' ∧ grown w w'.
Proof.
  revert w. induction projects as [|lp projects IH]; intros w; [done|].
  cbn [forallb verbose_report omap list_omap]. unfold printable at 1.
  destruct (verbose_project lp) as [text|] eqn:Hlp.
  - rewrite bool_decide_true by done. cbn [andb].
    specialize (IH (print (LProject text) w)).
    destruct (forallb printable projects); [done|].
    destruct IH as (w' & Hrun & Hgrown). exists w'. split; [done|].
    eapply grown_trans; [|exact Hgrown]. apply (grown_prints [_]).
  - rewrite bool_decide_false by (by intros [? ?]). cbn [andb].
    exists w. split; [done|apply grown_refl].
Qed.

Lemma solve_report_spec (soe : solnOrErr) (w : World) :
  if report_ok fl soe
  then solve_report fl soe w = Returns (prints (report_lines fl soe) w)
  else ∃ w', solve_report fl soe w = Panics w' ∧ grown w w'.
Proof.
  unfold report_ok, solve_report, report_lines.
  destruct (soe_err soe) as [e|].
  - rewrite bool_decide_true, orb_true_r by done. cbn [orb]. by destruct (verbose fl).
  - rewrite bool_decide_false by (by intros [? ?]).
    destruct (verbose fl); cbn [negb orb]; [|done].
    pose proof (verbose_report_spec (default [] (soe_s soe)) (print LSuccess w)) as Hrep.
    destruct (forallb printable _); [done|].
    destruct Hrep as (w' & Hrun & Hgrown). exists w'. split; [done|].
    eapply grown_trans; [|exact Hgrown]. apply (grown_prints [_]).
Qed.

Lemma sweep_ok_quiet (p : Prepared) (vl : list Version) :
  verbose fl = false → sweep_ok fl p vl = true.
Proof.
  intros Hv. unfold sweep_ok. apply forallb_forall. intros v _.
  unfold report_ok. by rewrite Hv.
Qed.

(** The report of a sweep cannot be built exactly when [--verbose] is
    given and the solution of a candidate holds a revision of fewer than
    seven bytes. *)
Lemma sweep_ok_false (p : Prepared) (vl : list Version) :
  sweep_ok fl p vl = false
  ↔ verbose fl = true
    ∧ ∃ v sol lp r,
        v ∈ vl ∧ soe_err (outcome p v) = None ∧ soe_s (outcome p v) = Some sol
        ∧ lp ∈ sol ∧ version_revision (LP_Version lp) = Some r
        ∧ String.length r < 7.
Proof.
  unfold sweep_ok. rewrite forallb_false_elem. split.
  - intros (v & Hv & Hok). unfold report_ok in Hok.
    apply orb_false_iff in Hok as [Hok Hsol]. apply orb_false_iff in Hok as [Hverb Herr].
    apply negb_false_iff in Hverb. split; [done|].
    apply bool_decide_eq_false_1 in Herr.
    apply forallb_false_elem in Hsol as (lp & Hlp & Hprint).
    apply printable_false in Hprint as (r & Hr & Hlen).
    destruct (soe_err (outcome p v)) as [e|] eqn:He; [by destruct Herr|].
    destruct (soe_s (outcome p v)) as [sol|] eqn:Hs; [|by apply elem_of_nil in Hlp].
    by exists v, sol, lp, r.
  - intros (Hverb & v & sol & lp & r & Hv & He & Hs & Hlp & Hr & Hlen).
    exists v. split; [done|]. unfold report_ok. rewrite Hverb, He, Hs. cbn.
    apply forallb_false_elem. exists lp. split; [done|].
    apply printable_false. by exists r.
Qed.

Lemma sweep_loop_spec (p : Prepared) (g0 : gmap string ProjectConstraint)
    (vl : list Version) :
  c (p_rm p) = mkMap g0 →
  ∀ k st,
    Ident (ss_focus st) = Ident (p_focus p) →
    tc (ss_rm st) = tc (p_rm p) → ovr (ss_rm st) = ovr (p_rm p) →
    ig (ss_rm st) = ig (p_rm p) →
    (∃ g, c (ss_rm st) = mkMap g ∧ ∀ f, <[p_root p := f]> g = <[p_root p := f]> g0) →
    k + length vl ≤ length (ss_solns st) →
    if sweep_ok fl p vl then
      ∃ st',
        sweep_loop fl p k vl st = Returns st'
        ∧ ss_solns st' = take k (ss_solns st) ++ (outcome p <$> vl)
                           ++ drop (k + length vl) (ss_solns st)
        ∧ w_fs (ss_w st') = w_fs (ss_w st)
        ∧ w_log (ss_w st')
          = w_log (ss_w st) ++ concat (sweep_events fl p (w_fs (ss_w st)) <$> vl)
    else ∃ w', sweep_loop fl p k vl st = Panics w' ∧ grown (ss_w st) w'.
Proof.
  intros Hg0. induction vl as [|v vl IH]; intros k st Hid Htc Hovr Hig (g & Hg & Hins) Hlen.
  - eexists; split; [done|]. cbn. rewrite Nat.add_0_r, take_drop, app_nil_r. done.
  - cbn [sweep_loop sweep_ok forallb]. rewrite Hg. cbn [map_assign].
    cbn in Hlen.
    set (focus := with_Constraint (ss_focus st) (VersionConstraint v)).
    assert (focus = with_Constraint (p_focus p) (VersionConstraint v)) as Hfocus
      by (unfold focus, with_Constraint; by rewrite Hid).
    set (rm := {| c := _ |}).
    assert (rm = pin p v) as Hrm.
    { unfold rm, pin. rewrite Hg0, Htc, Hovr, Hig, Hins, Hfocus. done. }
    rewrite Hrm. fold (outcome p v).
    set (w1 := emit _ _ _).
    assert (grown (ss_w st) w1) as Hw1.
    { eapply grown_trans; [apply (grown_prints [LLooking (p_root p) v])|].
      by apply grown_emit. }
    pose proof (solve_report_spec (outcome p v) w1) as Hrep.
    destruct (report_ok fl (outcome p v)); cbn [andb].
    2: { destruct Hrep as (w' & -> & Hgrown). exists w'. split; [done|].
         by eapply grown_trans. }
    rewrite Hrep. cbn [mbind ends_bind].
    fold (sweep_ok fl p vl).
    match goal with
    | |- context [sweep_loop fl p (S k) vl ?st1] =>
        specialize (IH (S k) st1); cbn [ss_focus ss_rm ss_solns ss_w c tc ovr ig] in IH
    end.
    assert (Ident focus = Ident (p_focus p)) as H1 by (by rewrite Hfocus).
    assert (∃ g, c (pin p v) = mkMap g
                 ∧ ∀ f, <[p_root p := f]> g = <[p_root p := f]> g0) as H2.
    { unfold pin. rewrite Hg0. eexists; split; [done|].
      intros f. by rewrite insert_insert_eq. }
    assert (S k + length vl ≤ length (<[k := outcome p v]> (ss_solns st))) as H3
      by (rewrite length_insert; lia).
    specialize (IH H1 eq_refl eq_refl eq_refl H2 H3).
    destruct (sweep_ok fl p vl).
    + destruct IH as (st' & Hrun & Hsolns & Hfs & Hlog).
      eexists; split; [exact Hrun|]. split_and!.
      * rewrite Hsolns.
        rewrite (take_S_r _ _ (outcome p v)) by (apply list_lookup_insert_eq; lia).
        rewrite take_insert_ge by lia.
        rewrite drop_insert_lt by lia.
        rewrite <- app_assoc. cbn.
        replace (k + S (length vl)) with (S (k + length vl)) by lia. done.
      * rewrite Hfs, prints_log. done.
      * rewrite Hlog, prints_log. cbn. rewrite <- !app_assoc. done.
    + destruct IH as (w' & Hrun & Hgrown).
      exists w'. split; [done|].
      eapply grown_trans; [exact Hw1|]. eapply grown_trans; [|exact Hgrown].
      apply grown_prints.
Qed.

Lemma sweep_spec (p : Prepared) (g0 : gmap string ProjectConstraint)
    (vl : list Version) (w : World) :
  c (p_rm p) = mkMap g0 →
  if sweep_ok fl p vl then
    ∃ st,
      sweep fl p vl w = Returns st
      ∧ ss_solns st = outcome p <$> vl
      ∧ w_fs (ss_w st) = w_fs w
      ∧ w_log (ss_w st) = w_log w ++ concat (sweep_events fl p (w_fs w) <$> vl)
  else ∃ w', sweep fl p vl w = Panics w' ∧ grown w w'.
Proof.
  intros Hg0. unfold sweep.
  match goal with
  | |- context [sweep_loop fl p 0 vl ?st0] =>
      pose proof (sweep_loop_spec p g0 vl Hg0 0 st0) as Hspec;
      cbn [ss_focus ss_rm ss_solns ss_w] in Hspec
  end.
  destruct (sweep_ok fl p vl).
  - destruct Hspec as (st & Hrun & Hsolns & Hfs & Hlog); try done.
    { eauto. }
    { by rewrite length_replicate. }
    exists st. split; [exact Hrun|]. split_and!; [|done|done].
    rewrite Hsolns. cbn. rewrite drop_ge, app_nil_r by (rewrite length_replicate; lia).
    done.
  - apply Hspec; try done.
    + eauto.
    + by rewrite length_replicate.
Qed.
End sweep_facts.

(** ** The reporting loop *)

Lemma strings_Split_hd_tl (s : string) (sep : ascii) :
  hd "" (strings_Split s sep) :: tl (strings_Split s sep) = strings_Split s sep.
Proof.
  destruct s as [|a s]; [done|]. cbn.
  destruct (Ascii.eqb a sep); [done|]. by destruct (strings_Split s sep).
Qed.

Section check_facts.
Context `{Collaborators}.
Variable fl : Flags.

Lemma check_one_run (p : Prepared) (vpath : string) (soln : solnOrErr)
    (w : World) (fail : bool) :
  ∃ seg fs' failed,
    candidate_run fl p vpath soln (w_fs w) seg fs' failed
    ∧ check_one fl p vpath soln (w, fail)
      = ({| w_fs := fs'; w_log := w_log w ++ seg |}, fail || failed).
Proof.
  unfold check_one.
  destruct (soe_err soln) as [e|] eqn:Herr.
  { do 3 eexists. split; [by apply run_solve_failed|].
    by rewrite orb_true_r. }
  case_bool_decide as Hrun.
  { do 3 eexists. split; [by apply run_solved|].
    by rewrite orb_false_r. }
  destruct (WriteDepTree vpath (soe_s soln) (w_fs w)) as [fs1 werr] eqn:Hw.
  destruct werr as [e|].
  { do 3 eexists. split; [by eapply run_write_failed|].
    unfold print, emit; cbn. by rewrite orb_true_r, <- app_assoc. }
  cbn [emit w_fs].
  destruct (CombinedOutput _ _ _ fs1) as [[fs2 out] cerr] eqn:Hc.
  do 3 eexists. split.
  { eapply run_command; [done|done|exact Hw|apply strings_Split_hd_tl|exact Hc]. }
  destruct cerr as [e|]; unfold do_RemoveAll, print, emit; cbn;
    rewrite <- !app_assoc; cbn.
  - by rewrite orb_true_r.
  - by rewrite orb_false_r.
Qed.

Lemma check_loop_run (p : Prepared) (vpath : string) (solns : list solnOrErr)
    (w : World) (fail : bool) :
  ∃ segs fs' failed,
    loop_run fl p vpath solns (w_fs w) segs fs' failed
    ∧ check_loop fl p vpath solns (w, fail)
      = ({| w_fs := fs'; w_log := w_log w ++ concat segs |}, fail || failed).
Proof.
  revert w fail. induction solns as [|soln solns IH]; intros w fail.
  - exists [], (w_fs w), false. split; [constructor|].
    cbn. rewrite app_nil_r, orb_false_r. by destruct w.
  - destruct (check_one_run p vpath soln w fail) as (seg & fs1 & failed & Hone & Heq).
    unfold check_loop. cbn [foldl]. rewrite Heq.
    destruct (IH {| w_fs := fs1; w_log := w_log w ++ seg |} (fail || failed))
      as (segs & fs2 & failed' & Hloop & Heq').
    unfold check_loop in Heq'. rewrite Heq'. cbn in *.
    exists (seg :: segs), fs2, (failed || failed'). split.
    + by econstructor.
    + by rewrite <- app_assoc, orb_assoc.
Qed.

(** The events of a candidate say whether it failed. *)
Lemma candidate_run_failed p vpath soln fs seg fs' failed :
  candidate_run fl p vpath soln fs seg fs' failed →
  failed = solve_failed soln
           || (nonempty (run fl)
               && existsb (fun e => tree_write_failed e || command_failed e) seg.*1)
  ∧ Forall (fun e => match e.1 with EvSolve _ _ => False | _ => True end) seg.
Proof.
  unfold solve_failed, nonempty.
  destruct 1 as [e He|He Hrun|fs1 e He Hrun Hw|fs1 fs2 name args out cerr He Hrun Hw Hparts Hc];
    rewrite He; cbn.
  - split; [done|by repeat constructor].
  - rewrite Hrun. split; [done|by repeat constructor].
  - rewrite bool_decide_true by done. split; [done|by repeat constructor].
  - rewrite (bool_decide_true (run fl ≠ "")) by done.
    split; [by destruct cerr|by repeat constructor].
Qed.

Lemma loop_run_failed p vpath solns fs segs fs' failed :
  loop_run fl p vpath solns fs segs fs' failed →
  failed = existsb solve_failed solns
           || (nonempty (run fl)
               && existsb (fun e => tree_write_failed e || command_failed e)
                    (concat segs).*1)
  ∧ Forall (fun e => match e.1 with EvSolve _ _ => False | _ => True end) (concat segs).
Proof.
  induction 1 as [|soln solns fs seg fs1 failed segs fs2 failed' Hone Hloop [IH1 IH2]];
    [cbn; by rewrite andb_false_r|].
  apply candidate_run_failed in Hone as (-> & Hns).
  split; [|cbn; by apply Forall_app].
  rewrite IH1. cbn. rewrite fmap_app, existsb_app.
  destruct (solve_failed soln), (existsb solve_failed solns), (nonempty (run fl));
    cbn; try done.
  by rewrite ?orb_true_r, ?orb_false_r.
Qed.
End check_facts.

(** ** The whole command *)

Arguments sweep_log : simpl never.

Section run_facts.
Context `{Collaborators}.
Variable fl : Flags.

Lemma prepare_inv (args : list string) (p : Prepared) :
  prepare fl args = Ok p →
  ∃ pkg m,
    args = [pkg]
    ∧ os_Getwd = Ok (p_wd p)
    ∧ parseConstraint fl = Ok (p_constraint p)
    ∧ p_rm p = prepManifest m
    ∧ p_focus p
      = with_Constraint
          (default {| Ident := {| PI_ProjectRoot := p_root p; NetworkName := "" |};
                      PC_Constraint := None |}
                   (map_lookup (c (prepManifest m)) (p_root p)))
          (p_constraint p).
Proof.
  unfold prepare. intros Hp. cbn in Hp.
  repeat (case_match; simplify_eq/=);
    destruct (parseConstraint fl) eqn:Hcs; simplify_eq/=;
    eexists _, _; (split_and!; [done..|]);
    by match goal with Hl : map_lookup _ _ = _ |- _ => rewrite Hl end.
Qed.

Lemma filterVersions_filter (cs : Constraint) (vlist : list Version) :
  filterVersions cs vlist = filter (fun v => Matches cs v = true) vlist.
Proof.
  unfold filterVersions.
  assert (∀ acc, foldl (fun vl v => if Matches cs v then vl ++ [v] else vl) acc vlist
                 = acc ++ filter (fun v => Matches cs v = true) vlist) as Hgen.
  { induction vlist as [|v vlist IH]; intros acc; cbn [foldl].
    - by rewrite app_nil_r.
    - rewrite IH, filter_cons. destruct (Matches cs v) eqn:Hm.
      + rewrite decide_True by done. by rewrite <- app_assoc.
      + rewrite decide_False by done. done. }
  apply Hgen.
Qed.

(** Every run that gets past the set-up and whose report can be built has
    one of two forms: it stops on a failed backup, or it goes through the
    wrapped reporting loop. *)
Lemma RunGTA_run (args : list string) (fs : FS) (p : Prepared) :
  prepare fl args = Ok p →
  filterVersions (p_constraint p) (p_vlist p) ≠ [] →
  sweep_ok fl p (filterVersions (p_constraint p) (p_vlist p)) = true →
  let vl := filterVersions (p_constraint p) (p_vlist p) in
  let vpath := filepath_Join (p_wd p) "vendor" in
  let bpath := filepath_Join (p_wd p) "_origvendor" in
  ∃ r,
    RunGTA fl args fs = Returns r
    ∧ r_solns r = outcome p <$> vl
    ∧ ((∃ e, run fl ≠ "" ∧ os_Stat vpath fs = None
             ∧ os_Rename vpath bpath fs = (fs, Some e)
             ∧ r_err r = Some (ErrBackup e)
             ∧ r_w r = {| w_fs := fs;
                          w_log := sweep_log fl p fs vl
                                   ++ [(EvStat vpath None, fs);
                                       (EvRename vpath bpath (Some e), fs)] |})
       ∨ (∃ pre fs1 segs fs2 failed post fs3,
             wrapped fl (p_wd p) fs pre fs1 fs2 post fs3
             ∧ loop_run fl p vpath (r_solns r) fs1 segs fs2 failed
             ∧ r_err r = (if failed then Some ErrEncountered else None)
             ∧ r_w r = {| w_fs := fs3;
                          w_log := sweep_log fl p fs vl ++ pre ++ concat segs ++ post |})).
Proof.
  intros Hp Hne Hok vl vpath bpath.
  destruct (prepare_inv _ _ Hp) as (pkg & m & _ & _ & _ & Hrm & _).
  destruct (prepManifest_not_nil m) as (g0 & Hg0 & _). rewrite <- Hrm in Hg0.
  pose proof (sweep_spec fl p g0 vl
                (print (LChecking (p_root p) vl) {| w_fs := fs; w_log := [] |}) Hg0)
    as Hspec.
  fold vl in Hok. rewrite Hok in Hspec.
  destruct Hspec as (st & Hsweep & Hsolns & Hfs & Hlog).
  unfold RunGTA. rewrite Hp. fold vl.
  rewrite bool_decide_false by (intros Hl; by apply Hne, nil_length_inv).
  rewrite Hsweep. cbn [mbind ends_bind]. fold vpath.
  destruct (ss_w st) as [sfs slog]. cbn in Hfs, Hlog. subst sfs slog.
  set (w := print LSpacer _).
  assert (w = {| w_fs := fs; w_log := sweep_log fl p fs vl |}) as ->.
  { unfold w, print, emit, sweep_log. by cbn. }
  unfold backup. unfold nonempty at 1. case_bool_decide as Hrun.
  - unfold do_Stat. cbn [w_fs]. destruct (os_Stat vpath fs) as [e|] eqn:Hstat.
    + destruct (check_loop_run fl p vpath (ss_solns st)
                  (emit (EvStat vpath (Some e)) fs
                     {| w_fs := fs; w_log := sweep_log fl p fs vl |}) false)
        as (segs & fs2 & failed & Hloop & Heq).
      rewrite Heq. cbn. eexists; split; [done|]. split; [done|]. right.
      exists [(EvStat vpath (Some e), fs)], fs, segs, fs2, failed, [], fs2.
      split_and!; [by constructor|done|done|].
      unfold emit. cbn. by rewrite app_nil_r, <- !app_assoc.
    + unfold do_Rename. cbn [emit w_fs fst snd].
      fold bpath. destruct (os_Rename vpath bpath fs) as [fs1 rerr] eqn:Hren.
      destruct rerr as [e|].
      * apply os_Rename_failed in Hren as Hfs1. subst fs1.
        eexists; split; [done|]. split; [done|]. left. exists e.
        split_and!; try done. unfold emit. cbn. by rewrite <- app_assoc.
      * match goal with
        | |- context [check_loop fl p vpath (ss_solns st) (?w0, false)] =>
            destruct (check_loop_run fl p vpath (ss_solns st) w0 false)
              as (segs & fs2 & failed & Hloop & Heq)
        end.
        rewrite Heq. cbn [run_deferred foldr do_Rename w_fs fst].
        destruct (os_Rename bpath vpath fs2) as [fs3 rerr] eqn:Hback.
        cbn. eexists; split; [done|]. split; [done|]. right.
        exists [(EvStat vpath None, fs); (EvRename vpath bpath None, fs1)],
          fs1, segs, fs2, failed, [(EvRename bpath vpath rerr, fs3)], fs3.
        split_and!; [by constructor|done|done|].
        unfold emit. cbn. by rewrite <- !app_assoc.
  - destruct (check_loop_run fl p vpath (ss_solns st)
                {| w_fs := fs; w_log := sweep_log fl p fs vl |} false)
      as (segs & fs2 & failed & Hloop & Heq).
    rewrite Heq. cbn. eexists; split; [done|]. split; [done|]. right.
    exists [], fs, segs, fs2, failed, [], fs2.
    split_and!; [constructor; by destruct (decide (run fl = ""))|done|done|].
    by rewrite app_nil_r.
Qed.

(** A run whose report cannot be built panics in the solving loop, before
    it goes to the file system. *)
Lemma RunGTA_panics (args : list string) (fs : FS) (p : Prepared) :
  prepare fl args = Ok p →
  filterVersions (p_constraint p) (p_vlist p) ≠ [] →
  sweep_ok fl p (filterVersions (p_constraint p) (p_vlist p)) = false →
  ∃ w, RunGTA fl args fs = Panics w
       ∧ w_fs w = fs ∧ Forall (quiet fs) (w_log w).
Proof.
  intros Hp Hne Hok.
  destruct (prepare_inv _ _ Hp) as (pkg & m & _ & _ & _ & Hrm & _).
  destruct (prepManifest_not_nil m) as (g0 & Hg0 & _). rewrite <- Hrm in Hg0.
  pose proof (sweep_spec fl p g0 (filterVersions (p_constraint p) (p_vlist p))
                (print (LChecking (p_root p) (filterVersions (p_constraint p) (p_vlist p)))
                   {| w_fs := fs; w_log := [] |}) Hg0)
    as Hspec.
  rewrite Hok in Hspec. destruct Hspec as (w & Hsweep & Hfs & l & Hlog & Hl).
  exists w. unfold RunGTA. rewrite Hp.
  rewrite bool_decide_false by (intros Hl'; by apply Hne, nil_length_inv).
  rewrite Hsweep. split; [done|]. split; [done|].
  rewrite Hlog. cbn. by constructor.
Qed.

(** How a run that gets past the set-up can end. *)
Lemma RunGTA_returned (args : list string) (fs : FS) (p : Prepared) (r : Result) :
  prepare fl args = Ok p →
  filterVersions (p_constraint p) (p_vlist p) ≠ [] →
  RunGTA fl args fs = Returns r →
  sweep_ok fl p (filterVersions (p_constraint p) (p_vlist p)) = true.
Proof.
  intros Hp Hne Hr.
  destruct (sweep_ok fl p _) eqn:Hok; [done|].
  destruct (RunGTA_panics args fs p Hp Hne Hok) as (w & Hw & _). congruence.
Qed.

Lemma RunGTA_panicked (args : list string) (fs : FS) (w : World) :
  RunGTA fl args fs = Panics w →
  verbose fl = true ∧ w_fs w = fs ∧ Forall (quiet fs) (w_log w)
  ∧ ∃ p, prepare fl args = Ok p
         ∧ sweep_ok fl p (filterVersions (p_constraint p) (p_vlist p)) = false.
Proof.
  intros Hw.
  destruct (prepare fl args) as [p|e] eqn:Hp; [|unfold RunGTA in Hw; by rewrite Hp in Hw].
  destruct (decide (filterVersions (p_constraint p) (p_vlist p) = [])) as [Hnil|Hne].
  { unfold RunGTA in Hw. by rewrite Hp, Hnil in Hw. }
  destruct (sweep_ok fl p (filterVersions (p_constraint p) (p_vlist p))) eqn:Hok.
  { destruct (RunGTA_run args fs p Hp Hne Hok) as (r & Hr & _). congruence. }
  destruct (RunGTA_panics args fs p Hp Hne Hok) as (w' & Hw' & Hfs & Hq).
  rewrite Hw in Hw'. injection Hw' as <-. split_and!; [|done|done|by exists p].
  destruct (verbose fl) eqn:Hv; [done|].
  by rewrite (sweep_ok_quiet fl p _ Hv) in Hok.
Qed.
End run_facts.

(** ** The solver's view of the constraints *)

Section solver_view.
Context `{Collaborators}.
Variable fl : Flags.

Lemma solver_calls_app (l1 l2 : list (Event * FS)) :
  solver_calls (l1 ++ l2) = solver_calls l1 ++ solver_calls l2.
Proof. apply omap_app. Qed.

Lemma solver_calls_none (l : list (Event * FS)) :
  Forall (fun e => match e.1 with EvSolve _ _ => False | _ => True end) l →
  solver_calls l = [].
Proof.
  induction 1 as [|[e fs] l He _ IH]; [done|].
  unfold solver_calls in *. cbn in *. by destruct e.
Qed.

Lemma solver_calls_sweep_events (p : Prepared) (fs : FS) (vl : list Version) :
  solver_calls (concat (sweep_events fl p fs <$> vl))
  = (fun v => params_of p (pin p v)) <$> vl.
Proof.
  induction vl as [|v vl IH]; [done|].
  cbn [fmap list_fmap concat]. rewrite solver_calls_app, IH.
  unfold sweep_events.
  change (?a :: ?b :: ?l) with ([a; b] ++ l).
  rewrite solver_calls_app, (solver_calls_none (_ <$> _))
    by (by apply Forall_fmap, Forall_true).
  done.
Qed.

Lemma solver_calls_sweep_log (p : Prepared) (fs : FS) (vl : list Version) :
  solver_calls (sweep_log fl p fs vl) = (fun v => params_of p (pin p v)) <$> vl.
Proof.
  unfold sweep_log. change (?x :: ?l ++ ?k) with ([x] ++ l ++ k).
  rewrite !solver_calls_app, solver_calls_sweep_events. cbn.
  by rewrite app_nil_r.
Qed.

Lemma wrapped_no_solve wd fs pre fs1 fs2 post fs3 :
  wrapped fl wd fs pre fs1 fs2 post fs3 →
  solver_calls pre = [] ∧ solver_calls post = [].
Proof. by destruct 1. Qed.

(** The solver is called once per candidate, in order, each time on the
    baseline with the focal entry pinned to that candidate. *)
Lemma RunGTA_solver_calls (args : list string) (fs : FS) (p : Prepared) (r : Result) :
  prepare fl args = Ok p →
  filterVersions (p_constraint p) (p_vlist p) ≠ [] →
  RunGTA fl args fs = Returns r →
  solver_calls (w_log (r_w r))
  = (fun v => params_of p (pin p v)) <$> filterVersions (p_constraint p) (p_vlist p).
Proof.
  intros Hp Hne Hr.
  destruct (RunGTA_run fl args fs p Hp Hne (RunGTA_returned fl args fs p r Hp Hne Hr))
    as (r' & Hr' & _ & Hcases).
  rewrite Hr in Hr'. injection Hr' as <-.
  destruct Hcases as [(e & _ & _ & _ & _ & ->)
                     |(pre & fs1 & segs & fs2 & failed & post & fs3 & Hw & Hl & _ & ->)];
    cbn [w_log].
  - rewrite solver_calls_app, solver_calls_sweep_log. cbn. by rewrite app_nil_r.
  - apply loop_run_failed in Hl as [_ Hns].
    apply wrapped_no_solve in Hw as [Hpre Hpost].
    rewrite !solver_calls_app, solver_calls_sweep_log, Hpre, Hpost,
      (solver_calls_none _ Hns).
    by rewrite !app_nil_r.
Qed.

Lemma pin_focal_count (p : Prepared) (g0 : gmap string ProjectConstraint) (v : Version) :
  c (p_rm p) = mkMap g0 →
  (∀ id d, g0 !! id = Some d → PI_ProjectRoot (Ident d) = id) →
  PI_ProjectRoot (Ident (p_focus p)) = p_root p →
  length (filter (fun d => PI_ProjectRoot (Ident d) = p_root p)
            (srm_DependencyConstraints (pin p v))) = 1.
Proof.
  intros Hg0 Hkeys Hroot. unfold srm_DependencyConstraints, pin. rewrite Hg0.
  cbn [c map_range].
  rewrite <- insert_delete_eq.
  rewrite map_to_list_insert by apply lookup_delete_eq.
  rewrite fmap_cons. cbn [snd]. rewrite filter_cons_True by done.
  cbn [length]. f_equal.
  destruct (filter _ _) as [|d l] eqn:Hf; [done|]. exfalso.
  assert (d ∈ filter (fun d => PI_ProjectRoot (Ident d) = p_root p)
                (map_to_list (delete (p_root p) g0)).*2) as Hin
    by (rewrite Hf; left).
  apply list_elem_of_filter in Hin as [Hd Hin].
  apply list_elem_of_fmap in Hin as ([k d'] & -> & Hin).
  apply elem_of_map_to_list in Hin.
  apply lookup_delete_Some in Hin as [Hne Hin].
  apply Hkeys in Hin. cbn in Hd. congruence.
Qed.
End solver_view.

(** C3: for every run that gets past the set-up, with [vl] the filtered
    candidate list.  When every report of the sweep can be built (always
    without [--verbose]), the solving loop ends with exactly one outcome per
    candidate, in the order of [vl]; the outcome at position [k] is the
    solver's answer for the [k]-th candidate, a failure of [Prepare] or
    [Solve] is stored as that candidate's error, and the solver is still
    called for every candidate, in order.  When a report cannot be built
    (with [--verbose], the solution of a candidate holds a revision of fewer
    than seven bytes, which the report cuts to seven), the loop panics:
    [RunGTA] does not return, and neither does [main]. *)
Theorem sweep_one_outcome_per_candidate `{Collaborators} (fl : Flags)
    (args : list string) (fs : FS) (p : Prepared) :
  prepare fl args = Ok p →
  filterVersions (p_constraint p) (p_vlist p) ≠ [] →
  let vl := filterVersions (p_constraint p) (p_vlist p) in
  (sweep_ok fl p vl = false
   ↔ verbose fl = true
     ∧ ∃ v sol lp r,
         v ∈ vl ∧ soe_err (outcome p v) = None ∧ soe_s (outcome p v) = Some sol
         ∧ lp ∈ sol ∧ version_revision (LP_Version lp) = Some r
         ∧ String.length r < 7)
  ∧ (sweep_ok fl p vl = true →
     ∃ r,
       RunGTA fl args fs = Returns r
       ∧ length (r_solns r) = length vl
       ∧ soe_v <$> r_solns r = Some <$> vl
       ∧ (∀ k v, vl !! k = Some v → r_solns r !! k = Some (outcome p v))
       ∧ (∀ k v e, vl !! k = Some v →
            Prepare (params_of p (pin p v)) = Some e
            ∨ (Prepare (params_of p (pin p v)) = None
               ∧ Solve (params_of p (pin p v)) = Err e) →
            r_solns r !! k
            = Some {| soe_v := Some v; soe_s := None; soe_err := Some e |})
       ∧ solver_calls (w_log (r_w r)) = (fun v => params_of p (pin p v)) <$> vl)
  ∧ (sweep_ok fl p vl = false →
     ∃ w, RunGTA fl args fs = Panics w ∧ main fl args fs = Panics w
          ∧ w_fs w = fs).
Proof.
  intros Hp Hne vl. split; [apply sweep_ok_false|]. split.
  - intros Hok.
    destruct (RunGTA_run fl args fs p Hp Hne Hok) as (r & Hr & Hsolns & _).
    exists r. split; [done|]. fold vl in Hsolns. rewrite Hsolns.
    split_and!.
    + by rewrite length_fmap.
    + rewrite <- list_fmap_compose. apply list_fmap_ext. intros k v _. cbn.
      unfold outcome, solve. by repeat case_match.
    + intros k v Hk. by rewrite list_lookup_fmap, Hk.
    + intros k v e Hk Hfail. rewrite list_lookup_fmap, Hk. cbn. f_equal.
      unfold outcome, solve. by destruct Hfail as [->|[-> ->]].
    + by apply (RunGTA_solver_calls fl args fs).
  - intros Hok.
    destruct (RunGTA_panics fl args fs p Hp Hne Hok) as (w & Hw & Hfs & Hq).
    exists w. split; [done|]. split; [unfold main; by rewrite Hw|done].
Qed.

Lemma sweep_one_outcome_per_candidate_witness :
  let C := Scenario.short_catalog [] true true in
  let fl := Scenario.verbose_flags "" in
  @prepare C fl [Scenario.foo] = Ok Scenario.short_prepared
  ∧ @sweep_ok C fl Scenario.short_prepared
      [Scenario.v1; Scenario.v2short; Scenario.v3] = false
  ∧ (∃ w, @RunGTA C fl [Scenario.foo] Scenario.disk = Panics w)
  ∧ ∃ r,
      @RunGTA C (Scenario.flags "") [Scenario.foo] Scenario.disk = Returns r
      ∧ soe_v <$> r_solns r = Some <$> [Scenario.v1; Scenario.v2short; Scenario.v3].
Proof.
  intros C fl.
  assert (@prepare C fl [Scenario.foo] = Ok Scenario.short_prepared) as Hp
    by (vm_compute; reflexivity).
  assert (@prepare C (Scenario.flags "") [Scenario.foo] = Ok Scenario.short_prepared)
    as Hp' by (vm_compute; reflexivity).
  assert (@filterVersions C (p_constraint Scenario.short_prepared)
            (p_vlist Scenario.short_prepared)
          = [Scenario.v1; Scenario.v2short; Scenario.v3]) as Hvl
    by (vm_compute; reflexivity).
  assert (@filterVersions C (p_constraint Scenario.short_prepared)
            (p_vlist Scenario.short_prepared) ≠ []) as Hne by (by rewrite Hvl).
  assert (@sweep_ok C fl Scenario.short_prepared
            [Scenario.v1; Scenario.v2short; Scenario.v3] = false) as Hshort
    by (vm_compute; reflexivity).
  assert (@sweep_ok C (Scenario.flags "") Scenario.short_prepared
            [Scenario.v1; Scenario.v2short; Scenario.v3] = true) as Hquiet
    by (vm_compute; reflexivity).
  split_and!; [exact Hp|exact Hshort|..].
  - destruct (@sweep_one_outcome_per_candidate C fl [Scenario.foo] Scenario.disk
                Scenario.short_prepared Hp Hne) as (_ & _ & Hpanic).
    rewrite Hvl in Hpanic. destruct (Hpanic Hshort) as (w & Hw & _).
    exists w. exact Hw.
  - destruct (@sweep_one_outcome_per_candidate C (Scenario.flags "") [Scenario.foo]
                Scenario.disk Scenario.short_prepared Hp' Hne) as (_ & Hret & _).
    rewrite Hvl in Hret. destruct (Hret Hquiet) as (r & Hr & _ & Hv & _).
    exists r. split; [exact Hr|exact Hv].
Defined.

(** C4, counterexample: the manifest has a test-only constraint on the
    focal dependency.  The solver then sees two entries for the focal
    identifier in every round: the override in the normal group, and the
    entry of the manifest, which no round touches, in the test-only
    group. *)
Lemma test_only_focal_entry_stays :
  let C := Scenario.test_focal [] true true in
  ∃ r params,
    @RunGTA C (Scenario.flags "") [Scenario.foo] Scenario.disk = Returns r
    ∧ solver_calls (w_log (r_w r)) !! 0 = Some params
    ∧ filter (fun d => PI_ProjectRoot (Ident d) = Scenario.foo)
        (srm_DependencyConstraints (SP_Manifest params))
      = [Scenario.dep Scenario.foo (VersionConstraint Scenario.v1)]
    ∧ filter (fun d => PI_ProjectRoot (Ident d) = Scenario.foo)
        (srm_TestDependencyConstraints (SP_Manifest params))
      = [Scenario.dep Scenario.foo (SemverConstraint "^1.0.0")]
    ∧ length (filter (fun d => PI_ProjectRoot (Ident d) = Scenario.foo)
                (srm_DependencyConstraints (SP_Manifest params)
                 ++ srm_TestDependencyConstraints (SP_Manifest params)))
      = 2.
Proof.
  intros C. exists Scenario.test_focal_result.
  eexists. split; [vm_compute; reflexivity|]. split; [vm_compute; reflexivity|].
  split_and!; vm_compute; reflexivity.
Qed.

Section baseline_facts.
Context `{Collaborators}.

Lemma pin_focal_entries (p : Prepared) (g0 : gmap string ProjectConstraint) (v : Version) :
  c (p_rm p) = mkMap g0 →
  (∀ id d, g0 !! id = Some d → PI_ProjectRoot (Ident d) = id) →
  PI_ProjectRoot (Ident (p_focus p)) = p_root p →
  filter (fun d => PI_ProjectRoot (Ident d) = p_root p)
    (srm_DependencyConstraints (pin p v))
  = [with_Constraint (p_focus p) (VersionConstraint v)].
Proof.
  intros Hg0 Hkeys Hroot. apply Permutation_singleton_r.
  unfold srm_DependencyConstraints, pin. rewrite Hg0. cbn [c map_range].
  rewrite <- insert_delete_eq.
  rewrite map_to_list_insert by apply lookup_delete_eq.
  rewrite fmap_cons. cbn [snd]. rewrite filter_cons_True by done.
  rewrite (filter_none (fun d => PI_ProjectRoot (Ident d) = p_root p)); [done|].
  intros d Hin Hd.
  apply list_elem_of_fmap in Hin as ([k d'] & -> & Hin).
  apply elem_of_map_to_list in Hin.
  apply lookup_delete_Some in Hin as [Hne Hin].
  apply Hkeys in Hin. cbn in Hd. congruence.
Qed.
End baseline_facts.

(** C4, amended: in every run that returns, the solver is called once per
    candidate, and the call for the candidate [v] sees, for every identifier
    other than the focal one, the entry the baseline builder made in the
    normal group, sees the test-only group as the baseline builder made it,
    and sees exactly one entry for the focal identifier in the normal
    group: the focal constraint pinned to [v].  The override is installed in
    the normal group only, so the solver sees as many more entries for the
    focal identifier as the test-only group of the baseline has. *)
Theorem sweep_keeps_baseline `{Collaborators} (fl : Flags)
    (args : list string) (fs : FS) (p : Prepared) (r : Result) :
  prepare fl args = Ok p →
  RunGTA fl args fs = Returns r →
  let vl := filterVersions (p_constraint p) (p_vlist p) in
  (∃ m, p_rm p = prepManifest m)
  ∧ length (solver_calls (w_log (r_w r))) = length vl
  ∧ ∀ k v,
      vl !! k = Some v →
      ∃ params,
        solver_calls (w_log (r_w r)) !! k = Some params
        ∧ (∀ id, id ≠ p_root p →
             map_lookup (c (SP_Manifest params)) id = map_lookup (c (p_rm p)) id)
        ∧ tc (SP_Manifest params) = tc (p_rm p)
        ∧ map_lookup (c (SP_Manifest params)) (p_root p)
          = Some {| Ident := Ident (p_focus p);
                    PC_Constraint := Some (VersionConstraint v) |}
        ∧ filter (fun d => PI_ProjectRoot (Ident d) = p_root p)
            (srm_DependencyConstraints (SP_Manifest params))
          = [{| Ident := Ident (p_focus p);
                PC_Constraint := Some (VersionConstraint v) |}]
        ∧ length (filter (fun d => PI_ProjectRoot (Ident d) = p_root p)
                    (srm_DependencyConstraints (SP_Manifest params)
                     ++ srm_TestDependencyConstraints (SP_Manifest params)))
          = 1 + length (filter (fun d => PI_ProjectRoot (Ident d) = p_root p)
                          (srm_TestDependencyConstraints (p_rm p))).
Proof.
  intros Hp Hr vl.
  destruct (prepare_inv _ _ _ Hp) as (pkg & m & _ & _ & _ & Hrm & Hfocus).
  split; [by exists m|].
  destruct (prepManifest_not_nil m) as (g0 & Hg0 & Hkeys). rewrite <- Hrm in Hg0.
  destruct (decide (vl = [])) as [Hnil|Hne].
  { unfold RunGTA in Hr. rewrite Hp in Hr. fold vl in Hr. rewrite Hnil in Hr.
    cbn in Hr. injection Hr as <-. rewrite Hnil. split; [done|]. by intros k v Hk. }
  pose proof (RunGTA_solver_calls fl args fs p r Hp Hne Hr) as Hcalls.
  fold vl in Hcalls. rewrite Hcalls. split; [by rewrite length_fmap|].
  intros k v Hk. exists (params_of p (pin p v)).
  rewrite list_lookup_fmap, Hk. split; [done|]. cbn [SP_Manifest params_of].
  assert (PI_ProjectRoot (Ident (p_focus p)) = p_root p) as Hroot.
  { rewrite Hfocus. unfold with_Constraint. cbn [Ident].
    destruct (map_lookup _ _) as [d|] eqn:Hd; [|done].
    rewrite <- Hrm, Hg0 in Hd. cbn in *. by apply Hkeys. }
  pose proof (pin_focal_entries p g0 v Hg0 Hkeys Hroot) as Hentries.
  split_and!.
  - intros id Hid. unfold pin. rewrite Hg0. cbn. by rewrite lookup_insert_ne.
  - done.
  - unfold pin. rewrite Hg0. cbn. by rewrite lookup_insert_eq.
  - exact Hentries.
  - rewrite filter_app, length_app. by rewrite Hentries.
Qed.

Lemma sweep_keeps_baseline_witness :
  let C := Scenario.collaborators [Scenario.v2] true true in
  @prepare C (Scenario.flags "") [Scenario.foo] = Ok Scenario.prepared
  ∧ @RunGTA C (Scenario.flags "") [Scenario.foo] Scenario.disk = Returns Scenario.quiet_result
  ∧ length (solver_calls (w_log (r_w Scenario.quiet_result))) = 3
  ∧ ∃ params,
      solver_calls (w_log (r_w Scenario.quiet_result)) !! 1 = Some params
      ∧ map_lookup (c (SP_Manifest params)) "github.com/baz/qux"
        = Some (Scenario.dep "github.com/baz/qux" Any)
      ∧ map_lookup (c (SP_Manifest params)) Scenario.foo
        = Some (Scenario.dep Scenario.foo (VersionConstraint Scenario.v2)).
Proof.
  intros C.
  assert (@prepare C (Scenario.flags "") [Scenario.foo] = Ok Scenario.prepared) as Hp
    by (vm_compute; reflexivity).
  assert (@RunGTA C (Scenario.flags "") [Scenario.foo] Scenario.disk = Returns Scenario.quiet_result) as Hr
    by (vm_compute; reflexivity).
  split; [exact Hp|]. split; [exact Hr|].
  destruct (@sweep_keeps_baseline C _ _ _ _ _ Hp Hr) as (_ & Hlen & Hcalls).
  split; [etrans; [exact Hlen|vm_compute; reflexivity]|].
  destruct (Hcalls 1 Scenario.v2 ltac:(vm_compute; reflexivity))
    as (params & Hk & Hother & _ & Hfocal & _).
  exists params. split; [exact Hk|]. split.
  - etrans; [apply Hother; by vm_compute|by vm_compute].
  - etrans; [exact Hfocal|by vm_compute].
Defined.

(** ** A nil manifest *)

(** C10: for a nil manifest the baseline builder returns allocated, empty
    maps for the normal and the test-only constraints; looking the focal
    identifier up finds nothing, assigning the focal entry succeeds, and the
    solving loop started on that baseline never panics on the assignment:
    it returns whenever its reports can be built. *)
Theorem prepManifest_nil_manifest `{Collaborators} (fl : Flags) :
  let rm := prepManifest None in
  c rm = mkMap ∅ ∧ tc rm = mkMap ∅
  ∧ is_nil (c rm) = false ∧ is_nil (tc rm) = false
  ∧ (∀ id, map_lookup (c rm) id = None)
  ∧ (∀ id d, map_assign (c rm) id d = Some (mkMap {[id := d]}))
  ∧ (∀ root wd vlist cs focus l ir vl w,
       let p := {| p_root := root; p_wd := wd; p_vlist := vlist;
                   p_constraint := cs; p_rm := rm; p_focus := focus;
                   p_lock := l; p_importroot := ir |} in
       sweep_ok fl p vl = true →
       ∃ st, sweep fl p vl w = Returns st ∧ length (ss_solns st) = length vl).
Proof.
  cbn zeta. split_and!; try done.
  intros root wd vlist cs focus l ir vl w Hok.
  match goal with
  | |- context [sweep fl ?p vl w] =>
      pose proof (sweep_spec fl p ∅ vl w eq_refl) as Hspec
  end.
  rewrite Hok in Hspec. destruct Hspec as (st & Hst & Hsolns & _).
  exists st. split; [done|]. by rewrite Hsolns, length_fmap.
Qed.

Lemma prepManifest_nil_manifest_witness :
  let C := Scenario.collaborators [] true true in
  let p := {| p_root := Scenario.foo; p_wd := "/go/src/app"; p_vlist := [Scenario.v1];
              p_constraint := Any; p_rm := prepManifest None;
              p_focus := Scenario.dep Scenario.foo Any;
              p_lock := None; p_importroot := "app" |} in
  @sweep_ok C (Scenario.flags "") p [Scenario.v1] = true
  ∧ ∃ st, @sweep C (Scenario.flags "") p [Scenario.v1] {| w_fs := ∅; w_log := [] |}
          = Returns st
          ∧ length (ss_solns st) = 1.
Proof.
  intros C p.
  assert (@sweep_ok C (Scenario.flags "") p [Scenario.v1] = true) as Hok
    by (vm_compute; reflexivity).
  split; [exact Hok|].
  destruct (@prepManifest_nil_manifest C (Scenario.flags "")) as (_ & _ & _ & _ & _ & _ & Hsweep).
  exact (Hsweep _ _ _ _ _ _ _ _ {| w_fs := ∅; w_log := [] |} Hok).
Defined.

(** ** Runs without a command *)

Section quiet_runs.
Context `{Collaborators}.
Variable fl : Flags.

Lemma sweep_log_quiet (p : Prepared) (fs : FS) (vl : list Version) :
  Forall (quiet fs) (sweep_log fl p fs vl).
Proof.
  unfold sweep_log. constructor; [done|]. apply Forall_app. split; [|by repeat constructor].
  apply Forall_concat, Forall_fmap, Forall_true. intros v.
  unfold sweep_events. repeat (constructor; [done|]).
  by apply Forall_fmap, Forall_true.
Qed.

Lemma loop_run_quiet p vpath solns fs segs fs' failed :
  run fl = "" →
  loop_run fl p vpath solns fs segs fs' failed →
  fs' = fs ∧ Forall (quiet fs) (concat segs).
Proof.
  intros Hrun. induction 1 as [|soln solns fs seg fs1 failed segs fs2 failed' Hone _ IH];
    [done|].
  destruct Hone; try done; destruct IH as [-> IH];
    (split; [done|]); cbn; by constructor.
Qed.

End quiet_runs.

(** C9: when no command is asked for ([run] is empty), the run ends,
    whether [RunGTA] returns or panics, with the file system it started on,
    and no event of it goes to the file system: no stat, no rename, no tree
    written, nothing removed, no command.  Without [--verbose] it
    returns. *)
Theorem no_command_no_filesystem_effect `{Collaborators} (fl : Flags)
    (args : list string) (fs : FS) :
  run fl = "" →
  let w := final_world (RunGTA fl args fs) in
  w_fs w = fs
  ∧ Forall (fun e => touches_fs e.1 = false ∧ e.2 = fs) (w_log w)
  ∧ (verbose fl = false → ∃ r, RunGTA fl args fs = Returns r).
Proof.
  intros Hrun. cbn zeta.
  destruct (RunGTA fl args fs) as [r|w] eqn:Hr; cbn [final_world].
  2: { apply RunGTA_panicked in Hr as (Hv & Hfs & Hq & _).
       split_and!; [done|done|]. intros Hv'. congruence. }
  assert (w_fs (r_w r) = fs
          ∧ Forall (fun e => touches_fs e.1 = false ∧ e.2 = fs) (w_log (r_w r)))
    as [Hfs Hq]; [|split_and!; [done|done|by eexists]].
  destruct (prepare fl args) as [p|e] eqn:Hp;
    [|unfold RunGTA in Hr; rewrite Hp in Hr; by injection Hr as <-].
  destruct (decide (filterVersions (p_constraint p) (p_vlist p) = [])) as [Hnil|Hne].
  { unfold RunGTA in Hr. rewrite Hp, Hnil in Hr. by injection Hr as <-. }
  destruct (RunGTA_run fl args fs p Hp Hne (RunGTA_returned fl args fs p r Hp Hne Hr))
    as (r' & Hr' & _ & Hcases).
  rewrite Hr in Hr'. injection Hr' as <-.
  destruct Hcases as [(e & Hne' & _)
                     |(pre & fs1 & segs & fs2 & failed & post & fs3 & Hw & Hl & _ & ->)];
    [done|].
  destruct Hw; try done.
  apply (loop_run_quiet fl) in Hl as [-> Hq]; [|done].
  split; [done|]. cbn. rewrite !app_nil_r.
  apply Forall_app. split; [apply sweep_log_quiet|done].
Qed.

Lemma no_command_no_filesystem_effect_witness :
  let C := Scenario.collaborators [Scenario.v2] true true in
  run (Scenario.flags "") = ""
  ∧ (∃ r, @RunGTA C (Scenario.flags "") [Scenario.foo] Scenario.disk = Returns r)
  ∧ w_fs (final_world (@RunGTA C (Scenario.flags "") [Scenario.foo] Scenario.disk))
    = Scenario.disk.
Proof.
  intros C. split; [reflexivity|].
  destruct (@no_command_no_filesystem_effect C (Scenario.flags "") [Scenario.foo]
              Scenario.disk eq_refl) as (Hfs & _ & Hret).
  split; [exact (Hret eq_refl)|exact Hfs].
Defined.

(** ** The verdict *)

Section verdict_facts.
Context `{Collaborators}.
Variable fl : Flags.

Lemma parseConstraint_err (e : error) :
  parseConstraint fl = Err e → e ≠ ErrEncountered.
Proof.
  unfold parseConstraint. intros He. by repeat (case_match; simplify_eq).
Qed.

Lemma prepare_err (args : list string) (e : error) :
  prepare fl args = Err e → e ≠ ErrEncountered.
Proof.
  unfold prepare. intros He.
  destruct (parseConstraint fl) as [cs|e'] eqn:Hcs; cbn in He;
    repeat (case_match; simplify_eq/=); try done;
    by eapply parseConstraint_err.
Qed.

Lemma quiet_not_failed (fs : FS) (l : list (Event * FS)) :
  Forall (quiet fs) l →
  existsb (fun e => tree_write_failed e || command_failed e) l.*1 = false.
Proof.
  induction 1 as [|[e fs'] l [He _] _ IH]; [done|].
  cbn in *. rewrite IH. by destruct e.
Qed.

Lemma wrapped_not_failed wd fs pre fs1 fs2 post fs3 :
  wrapped fl wd fs pre fs1 fs2 post fs3 →
  existsb (fun e => tree_write_failed e || command_failed e) pre.*1 = false
  ∧ existsb (fun e => tree_write_failed e || command_failed e) post.*1 = false.
Proof. by destruct 1. Qed.
End verdict_facts.

(** C2, counterexample: every candidate is solved and no command fails (no
    command even starts), but the tree cannot be written; the run returns an
    error and the process exits with status 1, while the verdict of the
    claim is Pass. *)
Lemma tree_write_failure_fails_the_run :
  let C := Scenario.collaborators [] false true in
  @RunGTA C (Scenario.flags "go test") [Scenario.foo] Scenario.disk = Returns Scenario.unwritten_result
  ∧ existsb solve_failed (r_solns Scenario.unwritten_result) = false
  ∧ existsb is_command (w_log (r_w Scenario.unwritten_result)).*1 = false
  ∧ spec_verdict_fail (Scenario.flags "go test") Scenario.unwritten_result = false
  ∧ r_err Scenario.unwritten_result = Some ErrEncountered
  ∧ fst <$> @main C (Scenario.flags "go test") [Scenario.foo] Scenario.disk = Returns 1.
Proof. by vm_compute. Qed.

(** C2, amended: for every run that returns and is not stopped by a set-up
    or backup error, the verdict is Fail, and [RunGTA] returns its error, if
    and only if at least one candidate has a solve error, or a command was
    asked for and, for at least one solved candidate, the tree could not be
    written or the command failed; otherwise the verdict is Pass and
    [RunGTA] returns nil.  The process exits with status 1 when the verdict
    is Fail and with status 0 when it is Pass.  Without [--verbose] every
    run returns. *)
Theorem verdict_of_run `{Collaborators} (fl : Flags)
    (args : list string) (fs : FS) :
  (verbose fl = false → ∃ r, RunGTA fl args fs = Returns r)
  ∧ ∀ r,
      RunGTA fl args fs = Returns r →
      aborted r = false →
      (r_err r = Some ErrEncountered ↔ verdict_fail fl r = true)
      ∧ (r_err r = None ↔ verdict_fail fl r = false)
      ∧ fst <$> main fl args fs = Returns (if verdict_fail fl r then 1 else 0).
Proof.
  split.
  { intros Hquiet. destruct (RunGTA fl args fs) as [r|w] eqn:Hr; [by eexists|].
    apply RunGTA_panicked in Hr as (Hv & _). congruence. }
  intros r Hr Hab.
  assert (r_err r = if verdict_fail fl r then Some ErrEncountered else None) as Hv.
  { destruct (prepare fl args) as [p|e] eqn:Hp.
    2: { unfold RunGTA in Hr. rewrite Hp in Hr. injection Hr as <-.
         apply prepare_err in Hp. unfold aborted in Hab. cbn in *. by destruct e. }
    destruct (decide (filterVersions (p_constraint p) (p_vlist p) = [])) as [Hnil|Hne].
    { unfold RunGTA in Hr. rewrite Hp, Hnil in Hr. by injection Hr as <-. }
    destruct (RunGTA_run fl args fs p Hp Hne (RunGTA_returned fl args fs p r Hp Hne Hr))
      as (r' & Hr' & _ & Hcases).
    rewrite Hr in Hr'. injection Hr' as <-.
    destruct Hcases as [(e & _ & _ & _ & He & _)
                       |(pre & fs1 & segs & fs2 & failed & post & fs3 & Hw & Hl & He & Hrw)].
    { unfold aborted in Hab. by rewrite He in Hab. }
    rewrite He. apply loop_run_failed in Hl as [-> _].
    apply wrapped_not_failed in Hw as [Hpre Hpost].
    unfold verdict_fail. rewrite Hrw. cbn [r_w w_log].
    rewrite !fmap_app, !existsb_app, Hpre, Hpost,
      (quiet_not_failed fs _ (sweep_log_quiet fl p fs _)).
    cbn. by rewrite orb_false_r. }
  unfold main. rewrite Hr. cbn. rewrite Hv.
  destruct (verdict_fail fl r); by split_and!.
Qed.

Lemma verdict_of_run_witness :
  let C := Scenario.collaborators [Scenario.v2] true true in
  @RunGTA C (Scenario.flags "go test") [Scenario.foo] Scenario.disk = Returns Scenario.checked_result
  ∧ aborted Scenario.checked_result = false
  ∧ verdict_fail (Scenario.flags "go test") Scenario.checked_result = true
  ∧ r_err Scenario.checked_result = Some ErrEncountered
  ∧ fst <$> @main C (Scenario.flags "go test") [Scenario.foo] Scenario.disk = Returns 1.
Proof.
  intros C.
  assert (@RunGTA C (Scenario.flags "go test") [Scenario.foo] Scenario.disk = Returns Scenario.checked_result)
    as Hr by (vm_compute; reflexivity).
  assert (aborted Scenario.checked_result = false) as Hab by reflexivity.
  destruct (@verdict_of_run C (Scenario.flags "go test") [Scenario.foo] Scenario.disk)
    as [_ Hverdict].
  destruct (Hverdict _ Hr Hab) as (Hfail & _ & Hexit).
  assert (verdict_fail (Scenario.flags "go test") Scenario.checked_result = true) as Hv
    by (by vm_compute).
  split_and!; [exact Hr|exact Hab|exact Hv|by apply Hfail|by rewrite Hexit, Hv].
Defined.

(** ** The command *)

Section command_facts.
Context `{Collaborators}.
Variable fl : Flags.




End command_facts.




(** ** The vendor directory *)

Section vendor_facts.
Context `{Collaborators}.
Variable fl : Flags.
Variable p : Prepared.

Let vpath := filepath_Join (p_wd p) "vendor".
Let bpath := filepath_Join (p_wd p) "_origvendor".

(** A path outside the vendor directory that the tree writer and the
    command leave alone holds after the reporting loop what it held
    before. *)
Lemma loop_run_frame (q : string) solns fs segs fs' failed :
  within vpath q = false →
  (∀ s fs0 fs1 e, WriteDepTree vpath s fs0 = (fs1, e) → fs1 !! q = fs0 !! q) →
  (∀ name a fs0 fs1 out e,
     CombinedOutput (p_wd p) name a fs0 = (fs1, out, e) → fs1 !! q = fs0 !! q) →
  loop_run fl p vpath solns fs segs fs' failed →
  fs' !! q = fs !! q.
Proof.
  intros Hq HW HC.
  induction 1 as [|soln solns fs seg fs1 failed segs fs2 failed' Hone _ IH]; [done|].
  rewrite IH.
  destruct Hone as [| |fs1 e _ _ Hw|fs1 fs2' name args out cerr _ _ Hw _ Hc]; try done.
  - by eapply HW.
  - rewrite os_RemoveAll_lookup, Hq.
    rewrite (HC _ _ _ _ _ _ Hc). by eapply HW.
Qed.

(** When a failed write leaves nothing at the vendor path, nothing is
    there between two candidates. *)
Lemma loop_run_vendor_absent solns fs segs fs' failed :
  (∀ s fs0 fs1 e,
     WriteDepTree vpath s fs0 = (fs1, Some e) →
     fs0 !! vpath = None → fs1 !! vpath = None) →
  loop_run fl p vpath solns fs segs fs' failed →
  fs !! vpath = None → fs' !! vpath = None.
Proof.
  intros HW.
  induction 1 as [|soln solns fs seg fs1 failed segs fs2 failed' Hone _ IH]; [done|].
  intros Hv. apply IH.
  destruct Hone as [| |fs1 e _ _ Hw|fs1 fs2' name args out cerr _ _ Hw _ Hc]; try done.
  - by eapply HW.
  - by rewrite os_RemoveAll_lookup, within_refl.
Qed.

(** The two renames of a run with a backup, seen from the vendor path and
    the backup path. *)
Lemma backup_rename fs fs1 (tree : node) :
  fs !! vpath = Some tree →
  os_Rename vpath bpath fs = (fs1, None) →
  fs1 !! vpath = None ∧ fs1 !! bpath = Some tree
  ∧ ∀ rest, within vpath (vpath +:+ rest) = true →
      fs1 !! (bpath +:+ rest) = fs !! (vpath +:+ rest).
Proof.
  intros Hv Hren. apply os_Rename_done in Hren as ->. split_and!.
  - rewrite renamed_other, within_refl; [done|].
    apply vendor_not_in_backup, within_refl.
  - pose proof (renamed_moved vpath bpath fs "") as Hm.
    rewrite !append_nil_r in Hm. rewrite Hm; [done|apply within_refl].
  - intros rest Hrest. by apply renamed_moved.
Qed.

Lemma restore_rename fs2 fs3 rerr (tree : node) :
  fs2 !! vpath = None → fs2 !! bpath = Some tree →
  os_Rename bpath vpath fs2 = (fs3, rerr) →
  rerr = None
  ∧ fs3 !! vpath = Some tree
  ∧ (∀ q, within bpath q = true → fs3 !! q = None)
  ∧ ∀ rest, within vpath (vpath +:+ rest) = true →
      fs3 !! (vpath +:+ rest) = fs2 !! (bpath +:+ rest).
Proof.
  intros Hv Hb Hren. unfold os_Rename in Hren. rewrite Hb, Hv in Hren.
  injection Hren as <- <-. split_and!; [done|..].
  - pose proof (renamed_moved bpath vpath fs2 "") as Hm.
    rewrite !append_nil_r in Hm. rewrite Hm; [done|apply within_refl].
  - intros q Hq. rewrite renamed_other, Hq; [done|].
    by apply backup_not_in_vendor.
  - intros rest Hrest. apply renamed_moved.
    rewrite within_append in *. done.
Qed.
End vendor_facts.

(** C1, counterexample: a run with a command is stopped right after the
    backup rename (its thirteenth event); the vendor directory is then
    missing from its path and sits at the backup path. *)
Lemma stopped_after_backup_leaves_backup :
  let C := Scenario.collaborators [Scenario.v2] true true in
  let stopped : FS := {[ Scenario.origvendor := Scenario.tree ]} in
  @RunGTA C (Scenario.flags "go test") [Scenario.foo] Scenario.disk = Returns Scenario.checked_result
  ∧ Scenario.disk !! Scenario.vendor = Some Scenario.tree
  ∧ (w_log (r_w Scenario.checked_result)).*1 !! 12
    = Some (EvRename Scenario.vendor Scenario.origvendor None)
  ∧ states_of Scenario.disk Scenario.checked_result !! 13 = Some stopped
  ∧ stopped !! Scenario.vendor = None
  ∧ stopped !! Scenario.origvendor = Some Scenario.tree.
Proof. intros C stopped. split_and!; vm_compute; reflexivity. Qed.

(** C1, amended: take a run with a command, started where the vendor
    directory exists and nothing is at the backup path, in which the tree
    writer and the command leave the backup path alone and a failed tree
    write leaves nothing at the vendor path.  When [RunGTA] returns (with any
    mix of passed and failed candidates, or with an error), the vendor path
    holds the original tree again, unchanged, and nothing is at the backup
    path.  When, moreover, nothing is below the backup path at the start and
    the tree writer and the command leave what is below it alone, then on
    return nothing is below the backup path and every path below the vendor
    path holds what it held at the start.  A run that panics has not touched
    the file system, and without [--verbose] the run returns.  (Nothing is
    said of a process that is stopped before [RunGTA] returns.) *)
Theorem vendor_restored_on_return `{Collaborators} (fl : Flags)
    (args : list string) (fs : FS) (wd : string) (tree : node) :
  let vpath := filepath_Join wd "vendor" in
  let bpath := filepath_Join wd "_origvendor" in
  os_Getwd = Ok wd →
  run fl ≠ "" →
  fs !! vpath = Some tree →
  fs !! bpath = None →
  (∀ s fs0 fs1 e,
     WriteDepTree vpath s fs0 = (fs1, e) →
     fs1 !! bpath = fs0 !! bpath
     ∧ (fs0 !! vpath = None → is_Some e → fs1 !! vpath = None)) →
  (∀ name a fs0 fs1 out e,
     CombinedOutput wd name a fs0 = (fs1, out, e) →
     fs1 !! bpath = fs0 !! bpath) →
  (∀ r, RunGTA fl args fs = Returns r →
     w_fs (r_w r) !! vpath = Some tree
     ∧ w_fs (r_w r) !! bpath = None
     ∧ ((∀ q, within bpath q = true → fs !! q = None) →
        (∀ s fs0 fs1 e q,
           WriteDepTree vpath s fs0 = (fs1, e) →
           within bpath q = true → fs1 !! q = fs0 !! q) →
        (∀ name a fs0 fs1 out e q,
           CombinedOutput wd name a fs0 = (fs1, out, e) →
           within bpath q = true → fs1 !! q = fs0 !! q) →
        (∀ q, within bpath q = true → w_fs (r_w r) !! q = None)
        ∧ ∀ rest, within vpath (vpath +:+ rest) = true →
            w_fs (r_w r) !! (vpath +:+ rest) = fs !! (vpath +:+ rest)))
  ∧ (∀ w, RunGTA fl args fs = Panics w → verbose fl = true ∧ w_fs w = fs)
  ∧ (verbose fl = false → ∃ r, RunGTA fl args fs = Returns r).
Proof.
  cbn zeta. intros Hwd Hrun Hv Hb HW HC.
  assert (∀ w, RunGTA fl args fs = Panics w → verbose fl = true ∧ w_fs w = fs) as Hpanic.
  { intros w Hw. by apply RunGTA_panicked in Hw as (? & ? & _). }
  split; [|split; [exact Hpanic|]].
  2: { intros Hquiet. destruct (RunGTA fl args fs) as [r|w] eqn:Hr; [by eexists|].
       destruct (Hpanic w eq_refl) as [Hv' _]. congruence. }
  intros r Hr.
  destruct (prepare fl args) as [p|e] eqn:Hp.
  2: { unfold RunGTA in Hr. rewrite Hp in Hr. injection Hr as <-. cbn [r_w w_fs].
       split_and!; [done|done|]. intros H0 _ _. by split. }
  destruct (decide (filterVersions (p_constraint p) (p_vlist p) = [])) as [Hnil|Hne].
  { unfold RunGTA in Hr. rewrite Hp, Hnil in Hr. injection Hr as <-. cbn [r_w w_fs].
    split_and!; [done|done|]. intros H0 _ _. by split. }
  destruct (prepare_inv _ _ _ Hp) as (_ & _ & _ & Hwd' & _).
  rewrite Hwd in Hwd'. injection Hwd' as ->.
  destruct (RunGTA_run fl args fs p Hp Hne (RunGTA_returned fl args fs p r Hp Hne Hr))
    as (r' & Hr' & _ & Hcases).
  rewrite Hr in Hr'. injection Hr' as <-.
  destruct Hcases as [(e & _ & _ & Hren & _)
                     |(pre & fs1 & segs & fs2 & failed & post & fs3 & Hw & Hl & _ & ->)].
  { unfold os_Rename in Hren. rewrite Hv, Hb in Hren. done. }
  cbn [r_w w_fs].
  destruct Hw as [fs2 Hrun'|fs2 e _ Hstat|fs1 fs2 fs3 rerr _ _ Hren Hback]; [done|..].
  { unfold os_Stat in Hstat. by rewrite Hv in Hstat. }
  destruct (backup_rename p _ _ tree Hv Hren) as (Hv1 & Hb1 & Hmoved1).
  assert (fs2 !! filepath_Join (p_wd p) "vendor" = None) as Hv2.
  { eapply (loop_run_vendor_absent fl p); [|exact Hl|exact Hv1].
    intros s fs0 fs1' e Hwr Hnone. by apply (HW _ _ _ _ Hwr). }
  assert (fs2 !! filepath_Join (p_wd p) "_origvendor" = Some tree) as Hb2.
  { rewrite <- Hb1. eapply (loop_run_frame fl p); [|..|exact Hl].
    - apply backup_not_in_vendor, within_refl.
    - intros s fs0 fs1' e Hwr. by apply (HW _ _ _ _ Hwr).
    - exact HC. }
  destruct (restore_rename p _ _ _ tree Hv2 Hb2 Hback) as (_ & Hv3 & Hb3 & Hmoved3).
  split_and!; [done|apply Hb3, within_refl|].
  intros _ HW' HC'. split; [exact Hb3|].
  intros rest Hrest. rewrite (Hmoved3 _ Hrest), <- (Hmoved1 _ Hrest).
  assert (within (filepath_Join (p_wd p) "_origvendor")
            (filepath_Join (p_wd p) "_origvendor" +:+ rest) = true) as Hin
    by (rewrite within_append in *; done).
  eapply (loop_run_frame fl p); [|..|exact Hl].
  - by apply backup_not_in_vendor.
  - intros s fs0 fs1' e Hwr. by eapply HW'.
  - intros name a fs0 fs1' out e Hc. by eapply HC'.
Qed.

Lemma vendor_restored_on_return_witness :
  let C := Scenario.collaborators [Scenario.v2] true false in
  let fl := Scenario.flags "go test" in
  @os_Getwd C = Ok "/go/src/app"
  ∧ run fl ≠ ""
  ∧ nested_disk !! Scenario.vendor = Some Scenario.tree
  ∧ nested_disk !! Scenario.origvendor = None
  ∧ (∀ s fs0 fs1 e,
       @WriteDepTree C Scenario.vendor s fs0 = (fs1, e) →
       fs1 !! Scenario.origvendor = fs0 !! Scenario.origvendor
       ∧ (fs0 !! Scenario.vendor = None → is_Some e → fs1 !! Scenario.vendor = None))
  ∧ (∀ name a fs0 fs1 out e,
       @CombinedOutput C "/go/src/app" name a fs0 = (fs1, out, e) →
       fs1 !! Scenario.origvendor = fs0 !! Scenario.origvendor)
  ∧ ∃ r,
      @RunGTA C fl [Scenario.foo] nested_disk = Returns r
      ∧ w_fs (r_w r) !! Scenario.vendor = Some Scenario.tree
      ∧ w_fs (r_w r) !! Scenario.origvendor = None
      ∧ w_fs (r_w r) !! "/go/src/app/vendor/foo.go" = Some (File "package foo")
      ∧ w_fs (r_w r) !! "/go/src/app/_origvendor/foo.go" = None.
Proof.
  intros C fl.
  assert (∀ s fs0 fs1 e,
            @WriteDepTree C Scenario.vendor s fs0 = (fs1, e) →
            fs1 !! Scenario.origvendor = fs0 !! Scenario.origvendor
            ∧ (fs0 !! Scenario.vendor = None → is_Some e → fs1 !! Scenario.vendor = None)) as HW.
  { intros s fs0 fs1 e [= <- <-]. split.
    - by apply lookup_insert_ne.
    - by intros _ [? ?]. }
  assert (∀ name a fs0 fs1 out e,
            @CombinedOutput C "/go/src/app" name a fs0 = (fs1, out, e) →
            fs1 !! Scenario.origvendor = fs0 !! Scenario.origvendor) as HC.
  { by intros name a fs0 fs1 out e [= <- _ _]. }
  assert (nested_disk !! Scenario.vendor = Some Scenario.tree) as Hv by (by vm_compute).
  assert (nested_disk !! Scenario.origvendor = None) as Hb by (by vm_compute).
  assert (run fl ≠ "") as Hrun by done.
  split_and!; [done|exact Hrun|exact Hv|exact Hb|exact HW|exact HC|].
  destruct (@vendor_restored_on_return C fl [Scenario.foo] nested_disk "/go/src/app" Scenario.tree
              eq_refl Hrun Hv Hb HW HC) as (Hret & _ & Hquiet).
  destruct (Hquiet eq_refl) as [r Hr].
  destruct (Hret r Hr) as (Hv' & Hb' & Hbelow).
  destruct Hbelow as [Hgone Hkept].
  - intros q Hq. apply (backup_not_in_vendor "/go/src/app") in Hq.
    unfold nested_disk. rewrite lookup_insert_ne, lookup_singleton_ne; [done|..];
      intros <-; vm_compute in Hq; discriminate.
  - intros s fs0 fs1 e q [= <- _] Hq. apply lookup_insert_ne.
    intros <-. vm_compute in Hq. discriminate.
  - by intros name a fs0 fs1 out e q [= <- _ _] _.
  - exists r. split_and!; [exact Hr|exact Hv'|exact Hb'|..].
    + etrans; [exact (Hkept "/foo.go" eq_refl)|vm_compute; reflexivity].
    + exact (Hgone "/go/src/app/_origvendor/foo.go" eq_refl).
Defined.

(** ** The filter *)



(** ** The godep loader *)

Section godep_facts.
Import godep.
Variable NormalizeName : string → string * string.

Let norm (d : Dependency) : string := (NormalizeName (ImportPath d)).1.
Let unseen (seen : gmap string bool) (d : Dependency) : Prop := seen !! norm d = None.

Lemma collect_spec (deps : list Dependency) (seen : gmap string bool)
    (m : list cfg_Dependency) (imports : list cfg_Lock) :
  collect NormalizeName deps seen m imports
  = (m ++ ((fun d => {| Name := norm d; Version := "" |})
             <$> filter (unseen seen) (first_occurrences NormalizeName deps)),
     imports ++ ((fun d => {| L_Name := norm d; Revision := Rev d |})
                   <$> filter (unseen seen) (first_occurrences NormalizeName deps))).
Proof.
  revert seen m imports. induction deps as [|d deps IH]; intros seen m imports.
  { cbn. by rewrite !app_nil_r. }
  cbn [collect first_occurrences]. fold (norm d).
  destruct (seen !! norm d) as [b|] eqn:Hseen.
  - rewrite IH, filter_cons_False by (unfold unseen; by rewrite Hseen).
    rewrite list_filter_filter.
    rewrite (list_filter_iff (fun d' => unseen seen d' ∧ norm d' ≠ norm d) (unseen seen));
      [done|].
    intros d'. unfold unseen. split; [by intros [? _]|].
    intros Hd'. split; [done|]. congruence.
  - rewrite IH, filter_cons_True by done.
    rewrite list_filter_filter.
    rewrite (list_filter_iff (unseen (<[norm d := true]> seen))
               (fun d' => unseen seen d' ∧ norm d' ≠ norm d)).
    + cbn. by rewrite <- !app_assoc.
    + intros d'. unfold unseen. rewrite lookup_insert_None.
      split; intros [? ?]; (split; [done|congruence]).
Qed.

Lemma first_occurrences_sublist (deps : list Dependency) :
  first_occurrences NormalizeName deps `sublist_of` deps.
Proof.
  induction deps as [|d deps IH]; [done|]. cbn.
  constructor. etrans; [apply sublist_filter|done].
Qed.

Lemma first_occurrences_NoDup (deps : list Dependency) :
  NoDup (norm <$> first_occurrences NormalizeName deps).
Proof.
  induction deps as [|d deps IH]; [constructor|].
  cbn [first_occurrences]. rewrite fmap_cons. constructor.
  - intros Hin. apply list_elem_of_fmap in Hin as (d' & Heq & Hin).
    apply list_elem_of_filter in Hin as [Hne _]. by apply Hne.
  - eapply sublist_NoDup; [exact IH|apply fmap_sublist, sublist_filter].
Qed.

Lemma first_occurrences_first (pre post : list Dependency) (d : Dependency) :
  (∀ d', d' ∈ pre → norm d' ≠ norm d) →
  d ∈ first_occurrences NormalizeName (pre ++ d :: post).
Proof.
  induction pre as [|x pre IH]; intros Hpre; [left|].
  cbn. right. apply list_elem_of_filter. split.
  - intros Heq. apply (Hpre x); [left|done].
  - apply IH. intros d' Hd'. apply Hpre. by right.
Qed.

Lemma first_occurrences_inv (deps : list Dependency) (d : Dependency) :
  d ∈ first_occurrences NormalizeName deps →
  ∃ pre post, deps = pre ++ d :: post ∧ ∀ d', d' ∈ pre → norm d' ≠ norm d.
Proof.
  induction deps as [|x deps IH]; intros Hin; [by apply elem_of_nil in Hin|].
  cbn in Hin. apply elem_of_cons in Hin as [->|Hin].
  - exists [], deps. split; [done|]. intros d' Hd'. by apply elem_of_nil in Hd'.
  - apply list_elem_of_filter in Hin as [Hne Hin].
    destruct (IH Hin) as (pre & post & -> & Hpre).
    exists (x :: pre), post. split; [done|].
    intros d' Hd'. apply elem_of_cons in Hd' as [->|Hd']; [|by apply Hpre].
    done.
Qed.
End godep_facts.

(** C8: for every decoded godep file, the loader returns one manifest entry
    and one lock entry per canonical identifier, in the order the
    identifiers first appear; each pair comes from the first entry of the
    import list with that identifier (later ones are dropped); the manifest
    entry carries the identifier and no version, and the lock entry carries
    the identifier and the revision pinned by that first entry. *)
Theorem AsMetadataPair_keeps_first (NormalizeName : string → string * string)
    (g : godep.Godeps) :
  let norm d := (NormalizeName (godep.ImportPath d)).1 in
  let kept := godep.first_occurrences NormalizeName (godep.Deps g) in
  godep.AsMetadataPair NormalizeName (Ok g)
  = Ok ((fun d => {| godep.Name := norm d; godep.Version := "" |}) <$> kept,
        {| godep.Imports :=
             (fun d => {| godep.L_Name := norm d; godep.Revision := godep.Rev d |})
               <$> kept |})
  ∧ NoDup (norm <$> kept)
  ∧ kept `sublist_of` godep.Deps g
  ∧ (∀ pre d post,
       godep.Deps g = pre ++ d :: post →
       (∀ d', d' ∈ pre → norm d' ≠ norm d) →
       d ∈ kept)
  ∧ (∀ d, d ∈ kept →
       ∃ pre post,
         godep.Deps g = pre ++ d :: post ∧ ∀ d', d' ∈ pre → norm d' ≠ norm d).
Proof.
  intros norm kept. split_and!.
  - unfold godep.AsMetadataPair. cbn. rewrite collect_spec. cbn.
    rewrite filter_all; [done|]. apply Forall_true. intros d. apply lookup_empty.
  - apply first_occurrences_NoDup.
  - apply first_occurrences_sublist.
  - intros pre d post Heq Hpre. unfold kept. rewrite Heq.
    by apply first_occurrences_first.
  - apply first_occurrences_inv.
Qed.

Lemma AsMetadataPair_keeps_first_witness :
  godep.AsMetadataPair Scenario.normalize (Ok Scenario.godeps)
  = Ok ([ {| godep.Name := "github.com/foo/bar"; godep.Version := "" |};
          {| godep.Name := "github.com/baz/qux"; godep.Version := "" |} ],
        {| godep.Imports :=
             [ {| godep.L_Name := "github.com/foo/bar";
                  godep.Revision := "1111111aaaaaaa" |};
               {| godep.L_Name := "github.com/baz/qux";
                  godep.Revision := "4444444ddddddd" |} ] |})
  ∧ {| godep.ImportPath := "github.com/foo/bar/sub"; godep.Comment := "";
       godep.Rev := "1111111aaaaaaa" |}
    ∈ godep.first_occurrences Scenario.normalize (godep.Deps Scenario.godeps).
Proof.
  destruct (AsMetadataPair_keeps_first Scenario.normalize Scenario.godeps)
    as (Heq & _ & _ & Hfirst & _).
  split.
  - rewrite Heq. by vm_compute.
  - apply (Hfirst [] _ (tail (godep.Deps Scenario.godeps)) eq_refl).
    intros d' Hd'. by apply elem_of_nil in Hd'.
Defined.

(** * Further properties *)

(** ** The constraint flags, again *)

Section flag_facts.
Context `{Collaborators}.
Variable fl : Flags.

Lemma parseConstraint_conflict :
  parseConstraint fl = Err ErrOneConstraintType
  ↔ (branch fl ≠ "" ∧ semver fl ≠ "") ∨ (branch fl ≠ "" ∧ version fl ≠ "")
    ∨ (semver fl ≠ "" ∧ version fl ≠ "").
Proof.
  unfold parseConstraint, nonempty.
  repeat case_bool_decide; cbn; try destruct (NewSemverConstraint _);
    (split; [try discriminate; intros _|]); intuition congruence.
Qed.

Lemma prepare_needs_constraint (args : list string) (e0 : error) :
  parseConstraint fl = Err e0 → ∃ e, prepare fl args = Err e.
Proof.
  intros He0. unfold prepare. rewrite He0. cbn.
  repeat (case_match; simplify_eq/=); by eexists.
Qed.

Lemma RunGTA_prepare_err (args : list string) (fs : FS) (e : error) :
  prepare fl args = Err e →
  RunGTA fl args fs
  = Returns {| r_err := Some e; r_solns := []; r_w := {| w_fs := fs; w_log := [] |} |}.
Proof. intros Hp. unfold RunGTA. by rewrite Hp. Qed.

(** What [prepare] tells about its pieces. *)
Lemma prepare_inv_more (args : list string) (p : Prepared) :
  prepare fl args = Ok p →
  ∃ vlist0 m,
    ListVersions {| PI_ProjectRoot := p_root p; NetworkName := "" |} = Ok vlist0
    ∧ vlist0 ≠ []
    ∧ p_vlist p = SortForUpgrade vlist0
    ∧ p_importroot p
      = strings_TrimPrefix (p_wd p) (filepath_Join GOPATH "src" +:+ "/")
    ∧ DeriveManifestAndLock (p_wd p) (p_importroot p) = Ok (m, p_lock p)
    ∧ p_rm p = prepManifest m.
Proof.
  unfold prepare. intros Hp.
  destruct (parseConstraint fl) as [cs|e'] eqn:Hcs; cbn in Hp;
    repeat (case_match; simplify_eq/=);
    eexists _, _; split_and!; try done;
    intros ->; by match goal with Hl : bool_decide _ = false |- _ =>
                   apply bool_decide_eq_false in Hl end.
Qed.
End flag_facts.

(** X1: the run is refused for conflicting constraint flags exactly when two
    of [--branch], [--semver] and [--version] are given; such a run always
    returns an error without calling the solver or touching the file system,
    and the process exits with status 1. *)
Theorem conflicting_flags_abort `{Collaborators} (fl : Flags)
    (args : list string) (fs : FS) :
  (parseConstraint fl = Err ErrOneConstraintType
   ↔ (branch fl ≠ "" ∧ semver fl ≠ "") ∨ (branch fl ≠ "" ∧ version fl ≠ "")
     ∨ (semver fl ≠ "" ∧ version fl ≠ ""))
  ∧ (parseConstraint fl = Err ErrOneConstraintType →
     (∃ e, RunGTA fl args fs
           = Returns {| r_err := Some e; r_solns := [];
                     r_w := {| w_fs := fs; w_log := [] |} |})
     ∧ fst <$> main fl args fs = Returns 1).
Proof.
  split; [apply parseConstraint_conflict|].
  intros Hc. destruct (prepare_needs_constraint fl args _ Hc) as [e He].
  split; [exists e; by apply RunGTA_prepare_err|].
  unfold main. by rewrite (RunGTA_prepare_err fl args fs e He).
Qed.

Lemma conflicting_flags_abort_witness :
  let C := Scenario.collaborators [] true true in
  let fl := {| run := "go test"; branch := "master"; semver := "";
               version := "v1"; verbose := false |} in
  @parseConstraint C fl = Err ErrOneConstraintType
  ∧ (∃ e, @RunGTA C fl [Scenario.foo] Scenario.disk
          = Returns {| r_err := Some e; r_solns := [];
                    r_w := {| w_fs := Scenario.disk; w_log := [] |} |})
  ∧ fst <$> @main C fl [Scenario.foo] Scenario.disk = Returns 1.
Proof.
  intros C fl.
  assert (@parseConstraint C fl = Err ErrOneConstraintType) as Hc by reflexivity.
  destruct (@conflicting_flags_abort C fl [Scenario.foo] Scenario.disk)
    as [_ Habort].
  destruct (Habort Hc) as [He Hexit].
  split_and!; [exact Hc|exact He|exact Hexit].
Defined.

(** X2: when the set-up succeeds, at most one constraint flag was given, and
    the constraint used to filter the catalog (the one stored in the focal
    entry) is [gps.Any()] without a flag, the branch for [--branch], the
    version for [--version], and for [--semver] the constraint that
    [gps.NewSemverConstraint] parsed. *)
Theorem prepared_constraint `{Collaborators} (fl : Flags)
    (args : list string) (p : Prepared) :
  prepare fl args = Ok p →
  PC_Constraint (p_focus p) = Some (p_constraint p)
  ∧ match bool_decide (branch fl = ""), bool_decide (semver fl = ""),
          bool_decide (version fl = "") with
    | true, true, true => p_constraint p = Any
    | false, true, true =>
        p_constraint p = VersionConstraint (Unpaired (NewBranch (branch fl)))
    | true, true, false =>
        p_constraint p = VersionConstraint (Unpaired (NewVersion (version fl)))
    | true, false, true => NewSemverConstraint (semver fl) = Ok (p_constraint p)
    | _, _, _ => False
    end.
Proof.
  intros Hp. destruct (prepare_inv fl _ _ Hp) as (pkg & m & _ & _ & Hcs & _ & Hfocus).
  split; [by rewrite Hfocus|].
  unfold parseConstraint, nonempty in Hcs.
  repeat case_bool_decide; cbn in Hcs; try discriminate; try congruence.
  by destruct (NewSemverConstraint (semver fl)).
Qed.

Lemma prepared_constraint_witness :
  let C := Scenario.collaborators [] true true in
  let fl := {| run := ""; branch := ""; semver := ""; version := "v2";
               verbose := false |} in
  @prepare C fl [Scenario.foo] = Ok Scenario.exact_prepared
  ∧ p_constraint Scenario.exact_prepared
    = VersionConstraint (Unpaired (NewVersion "v2")).
Proof.
  intros C fl.
  assert (@prepare C fl [Scenario.foo] = Ok Scenario.exact_prepared) as Hp
    by (vm_compute; reflexivity).
  split; [exact Hp|].
  destruct (@prepared_constraint C fl [Scenario.foo] _ Hp) as [_ Hcs].
  exact Hcs.
Defined.

(** ** Runs that stop early *)

Section early_facts.
Context `{Collaborators}.
Variable fl : Flags.

Lemma quiet_no_tree (fs : FS) (l : list (Event * FS)) :
  Forall (quiet fs) l →
  existsb handles_tree l.*1 = false ∧ existsb is_rename l.*1 = false.
Proof.
  induction 1 as [|[e fs'] l [He _] _ [IH1 IH2]]; [done|].
  cbn in *. rewrite IH1, IH2. by destruct e.
Qed.

Lemma quiet_fs (fs : FS) (l : list (Event * FS)) :
  Forall (quiet fs) l → Forall (fun e => touches_fs e.1 = false) l.
Proof. intros Hq. eapply Forall_impl; [exact Hq|]. by intros e [? _]. Qed.
End early_facts.

(** X3: a run that returns an error other than the final "one or more
    errors" and other than a failed backup stopped during the set-up: no
    candidate was solved, nothing was printed or done, the file system is
    the one the run started on, and the process exits with status 1. *)
Theorem setup_error_no_effect `{Collaborators} (fl : Flags)
    (args : list string) (fs : FS) (r : Result) (e : error) :
  RunGTA fl args fs = Returns r →
  r_err r = Some e →
  e ≠ ErrEncountered →
  (∀ e', e ≠ ErrBackup e') →
  r_solns r = []
  ∧ r_w r = {| w_fs := fs; w_log := [] |}
  ∧ fst <$> main fl args fs = Returns 1.
Proof.
  intros Hr He Hne Hnb.
  assert (fst <$> main fl args fs = Returns 1) as Hexit
    by (unfold main; rewrite Hr; cbn; by rewrite He).
  destruct (prepare fl args) as [p|e0] eqn:Hp.
  2: { rewrite (RunGTA_prepare_err fl args fs e0 Hp) in Hr. by injection Hr as <-. }
  destruct (decide (filterVersions (p_constraint p) (p_vlist p) = [])) as [Hnil|Hnn].
  { unfold RunGTA in Hr. rewrite Hp, Hnil in Hr. by injection Hr as <-. }
  destruct (RunGTA_run fl args fs p Hp Hnn (RunGTA_returned fl args fs p r Hp Hnn Hr))
    as (r' & Hr' & _ & Hcases).
  rewrite Hr in Hr'. injection Hr' as <-.
  destruct Hcases as [(e' & _ & _ & _ & He' & _)
                     |(pre & fs1 & segs & fs2 & failed & post & fs3 & _ & _ & He' & _)].
  - rewrite He in He'. injection He' as ->. by destruct (Hnb e').
  - rewrite He in He'. by destruct failed; simplify_eq.
Qed.

Lemma setup_error_no_effect_witness :
  let C := Scenario.collaborators [] true true in
  let r := {| r_err := Some ErrSingleDependency; r_solns := [];
              r_w := {| w_fs := Scenario.disk; w_log := [] |} |} in
  @RunGTA C (Scenario.flags "go test") [] Scenario.disk = Returns r
  ∧ fst <$> @main C (Scenario.flags "go test") [] Scenario.disk = Returns 1.
Proof.
  intros C r.
  assert (@RunGTA C (Scenario.flags "go test") [] Scenario.disk = Returns r) as Hr
    by reflexivity.
  split; [exact Hr|].
  by destruct (@setup_error_no_effect C (Scenario.flags "go test") [] Scenario.disk
                 r ErrSingleDependency Hr eq_refl ltac:(done) ltac:(done))
    as (_ & _ & Hexit).
Defined.

(** X4: with a command asked for and a vendor directory in place, something
    at the backup path that the rename cannot replace (a directory, or a
    file when the vendor path holds a directory) stops a run whose reports
    can be built after the solving loop: it returns the backup error, the
    file system is unchanged, every candidate has its outcome, and no tree
    is written, used or removed. *)
Theorem blocked_backup_aborts `{Collaborators} (fl : Flags)
    (args : list string) (fs : FS) (p : Prepared) (n b : node) :
  prepare fl args = Ok p →
  filterVersions (p_constraint p) (p_vlist p) ≠ [] →
  sweep_ok fl p (filterVersions (p_constraint p) (p_vlist p)) = true →
  run fl ≠ "" →
  fs !! filepath_Join (p_wd p) "vendor" = Some n →
  fs !! filepath_Join (p_wd p) "_origvendor" = Some b →
  is_dir b || is_dir n = true →
  ∃ r e,
    RunGTA fl args fs = Returns r
    ∧ r_err r = Some (ErrBackup e)
    ∧ w_fs (r_w r) = fs
    ∧ r_solns r = outcome p <$> filterVersions (p_constraint p) (p_vlist p)
    ∧ existsb handles_tree (w_log (r_w r)).*1 = false
    ∧ Forall (fun e => e.2 = fs) (w_log (r_w r)).
Proof.
  intros Hp Hnn Hok Hrun Hv Hb Hdir.
  destruct (RunGTA_run fl args fs p Hp Hnn Hok) as (r & Hr & Hsolns & Hcases).
  assert (∃ e, os_Rename (filepath_Join (p_wd p) "vendor")
                 (filepath_Join (p_wd p) "_origvendor") fs = (fs, Some e)) as [e0 Hren].
  { unfold os_Rename. rewrite Hv, Hb. destruct b; [|by eexists].
    cbn in Hdir. rewrite Hdir. by eexists. }
  destruct Hcases as [(e & _ & _ & _ & He & Hw)
                     |(pre & fs1 & segs & fs2 & failed & post & fs3 & Hw & _)].
  - exists r, e. split_and!; try done; rewrite Hw; cbn [r_w w_fs w_log]; [done|..].
    + rewrite fmap_app, existsb_app.
      destruct (quiet_no_tree fs _ (sweep_log_quiet fl p fs
                  (filterVersions (p_constraint p) (p_vlist p)))) as [-> _]. done.
    + apply Forall_app. split; [|by repeat constructor].
      eapply Forall_impl; [apply (sweep_log_quiet fl)|]. by intros ? [_ ?].
  - destruct Hw as [fs2 Hrun'|fs2 e _ Hstat|fs1 fs2 fs3 rerr _ _ Hren' _]; [done|..].
    + unfold os_Stat in Hstat. by rewrite Hv in Hstat.
    + rewrite Hren in Hren'. done.
Qed.

Lemma blocked_backup_aborts_witness :
  let C := Scenario.collaborators [Scenario.v2] true true in
  @prepare C (Scenario.flags "go test") [Scenario.foo] = Ok Scenario.prepared
  ∧ @sweep_ok C (Scenario.flags "go test") Scenario.prepared
      (@filterVersions C (p_constraint Scenario.prepared) (p_vlist Scenario.prepared))
    = true
  ∧ blocked_disk !! Scenario.vendor = Some Scenario.tree
  ∧ blocked_disk !! Scenario.origvendor = Some (Dir [])
  ∧ ∃ r e,
      @RunGTA C (Scenario.flags "go test") [Scenario.foo] blocked_disk = Returns r
      ∧ r_err r = Some (ErrBackup e)
      ∧ w_fs (r_w r) = blocked_disk
      ∧ existsb handles_tree (w_log (r_w r)).*1 = false.
Proof.
  intros C.
  assert (@prepare C (Scenario.flags "go test") [Scenario.foo] = Ok Scenario.prepared)
    as Hp by (vm_compute; reflexivity).
  assert (@sweep_ok C (Scenario.flags "go test") Scenario.prepared
            (@filterVersions C (p_constraint Scenario.prepared)
               (p_vlist Scenario.prepared)) = true) as Hok
    by (vm_compute; reflexivity).
  assert (blocked_disk !! Scenario.vendor = Some Scenario.tree) as Hv
    by (vm_compute; reflexivity).
  assert (blocked_disk !! Scenario.origvendor = Some (Dir [])) as Hb
    by (vm_compute; reflexivity).
  split_and!; [exact Hp|exact Hok|exact Hv|exact Hb|].
  destruct (@blocked_backup_aborts C (Scenario.flags "go test") [Scenario.foo]
              blocked_disk Scenario.prepared Scenario.tree (Dir []) Hp
              ltac:(by vm_compute) Hok ltac:(done) Hv Hb eq_refl)
    as (r & e & Hr & He & Hfs & _ & Htree & _).
  exists r, e. split_and!; [exact Hr|exact He|exact Hfs|exact Htree].
Defined.

(** ** What a run leaves on disk *)

Section disk_facts.
Context `{Collaborators}.
Variable fl : Flags.
Variable p : Prepared.

Let vpath := filepath_Join (p_wd p) "vendor".

Lemma loop_run_no_rename solns fs segs fs' failed :
  loop_run fl p vpath solns fs segs fs' failed →
  existsb is_rename (concat segs).*1 = false.
Proof.
  induction 1 as [|soln solns fs seg fs1 failed segs fs2 failed' Hone _ IH]; [done|].
  cbn. rewrite fmap_app, existsb_app, IH. by destruct Hone.
Qed.
End disk_facts.

(** X5: take a run with a command, started where nothing is at the vendor
    path, with a tree writer whose failed writes leave nothing there.  When
    the run ends, whether [RunGTA] returns or panics, nothing is at the
    vendor path (every tree that was written has been removed), and the run
    has renamed nothing.  Without [--verbose] it returns. *)
Theorem no_vendor_none_left `{Collaborators} (fl : Flags)
    (args : list string) (fs : FS) (wd : string) :
  os_Getwd = Ok wd →
  run fl ≠ "" →
  fs !! filepath_Join wd "vendor" = None →
  (∀ s fs0 fs1 e,
     WriteDepTree (filepath_Join wd "vendor") s fs0 = (fs1, Some e) →
     fs0 !! filepath_Join wd "vendor" = None →
     fs1 !! filepath_Join wd "vendor" = None) →
  let w := final_world (RunGTA fl args fs) in
  w_fs w !! filepath_Join wd "vendor" = None
  ∧ existsb is_rename (w_log w).*1 = false
  ∧ (verbose fl = false → ∃ r, RunGTA fl args fs = Returns r).
Proof.
  intros Hwd Hrun Hv HW. cbn zeta.
  destruct (RunGTA fl args fs) as [r|w] eqn:Hr; cbn [final_world].
  2: { apply RunGTA_panicked in Hr as (Hverb & -> & Hq & _).
       split_and!; [done| |intros ?; congruence].
       by destruct (quiet_no_tree _ _ Hq). }
  assert (w_fs (r_w r) !! filepath_Join wd "vendor" = None
          ∧ existsb is_rename (w_log (r_w r)).*1 = false) as [? ?];
    [|split_and!; [done|done|by eexists]].
  destruct (prepare fl args) as [p|e] eqn:Hp.
  2: { rewrite (RunGTA_prepare_err fl args fs e Hp) in Hr. by injection Hr as <-. }
  destruct (decide (filterVersions (p_constraint p) (p_vlist p) = [])) as [Hnil|Hnn].
  { unfold RunGTA in Hr. rewrite Hp, Hnil in Hr. by injection Hr as <-. }
  destruct (prepare_inv fl _ _ Hp) as (pkg & m & _ & Hwd' & _).
  rewrite Hwd in Hwd'. injection Hwd' as ->.
  destruct (RunGTA_run fl args fs p Hp Hnn (RunGTA_returned fl args fs p r Hp Hnn Hr))
    as (r' & Hr' & _ & Hcases).
  rewrite Hr in Hr'. injection Hr' as <-.
  destruct Hcases as [(e & _ & Hstat & _)
                     |(pre & fs1 & segs & fs2 & failed & post & fs3 & Hw & Hl & _ & ->)].
  { unfold os_Stat in Hstat. by rewrite Hv in Hstat. }
  cbn [r_w w_fs w_log].
  destruct Hw as [fs2 Hrun'|fs2 e _ Hstat|fs1 fs2 fs3 rerr _ Hstat _ _]; [done|..].
  2: { unfold os_Stat in Hstat. by rewrite Hv in Hstat. }
  split.
  - by eapply (loop_run_vendor_absent fl p).
  - rewrite !fmap_app, !existsb_app, (loop_run_no_rename fl p _ _ _ _ _ Hl).
    destruct (quiet_no_tree fs _ (sweep_log_quiet fl p fs
                (filterVersions (p_constraint p) (p_vlist p)))) as [_ ->]. done.
Qed.

Lemma no_vendor_none_left_witness :
  let C := Scenario.collaborators [Scenario.v2] true true in
  @os_Getwd C = Ok "/go/src/app"
  ∧ run (Scenario.flags "go test") ≠ ""
  ∧ (∅ : FS) !! Scenario.vendor = None
  ∧ @RunGTA C (Scenario.flags "go test") [Scenario.foo] ∅ = Returns bare_result
  ∧ r_err bare_result = Some ErrEncountered
  ∧ w_fs (r_w bare_result) !! Scenario.vendor = None
  ∧ existsb is_rename (w_log (r_w bare_result)).*1 = false.
Proof.
  intros C.
  assert (@RunGTA C (Scenario.flags "go test") [Scenario.foo] ∅ = Returns bare_result)
    as Hr by (vm_compute; reflexivity).
  destruct (@no_vendor_none_left C (Scenario.flags "go test") [Scenario.foo] ∅
              "/go/src/app" eq_refl ltac:(done) eq_refl)
    as (Hv & Hren & _).
  { by intros s fs0 fs1 e [= _ ?]. }
  rewrite Hr in Hv, Hren.
  split_and!; [reflexivity|done|reflexivity|exact Hr|reflexivity|exact Hv|exact Hren].
Defined.

(** X6: the run itself goes to the vendor path and the backup path, with
    what is below them, and nowhere else.  For every path outside the two
    that the tree writer and the command leave alone, what the path holds
    when [RunGTA] returns is what it held when the run started. *)
Theorem other_paths_untouched `{Collaborators} (fl : Flags)
    (args : list string) (fs : FS) (wd q : string) (r : Result) :
  os_Getwd = Ok wd →
  within (filepath_Join wd "vendor") q = false →
  within (filepath_Join wd "_origvendor") q = false →
  (∀ s fs0 fs1 e,
     WriteDepTree (filepath_Join wd "vendor") s fs0 = (fs1, e) →
     fs1 !! q = fs0 !! q) →
  (∀ name a fs0 fs1 out e,
     CombinedOutput wd name a fs0 = (fs1, out, e) → fs1 !! q = fs0 !! q) →
  RunGTA fl args fs = Returns r →
  w_fs (r_w r) !! q = fs !! q.
Proof.
  intros Hwd Hqv Hqb HW HC Hr.
  destruct (prepare fl args) as [p|e] eqn:Hp.
  2: { rewrite (RunGTA_prepare_err fl args fs e Hp) in Hr. by injection Hr as <-. }
  destruct (decide (filterVersions (p_constraint p) (p_vlist p) = [])) as [Hnil|Hnn].
  { unfold RunGTA in Hr. rewrite Hp, Hnil in Hr. by injection Hr as <-. }
  destruct (prepare_inv fl _ _ Hp) as (pkg & m & _ & Hwd' & _).
  rewrite Hwd in Hwd'. injection Hwd' as ->.
  destruct (RunGTA_run fl args fs p Hp Hnn (RunGTA_returned fl args fs p r Hp Hnn Hr))
    as (r' & Hr' & _ & Hcases).
  rewrite Hr in Hr'. injection Hr' as <-.
  destruct Hcases as [(e & _ & _ & _ & _ & ->)
                     |(pre & fs1 & segs & fs2 & failed & post & fs3 & Hw & Hl & _ & ->)];
    [done|].
  cbn [r_w w_fs].
  pose proof (loop_run_frame fl p q _ _ _ _ _ Hqv HW HC Hl) as Hloop.
  destruct Hw as [fs2 _|fs2 e _ _|fs1 fs2 fs3 rerr _ _ Hren Hback]; [done|done|].
  rewrite (os_Rename_frame _ _ q _ _ _ Hqb Hqv Hback), Hloop.
  exact (os_Rename_frame _ _ q _ _ _ Hqv Hqb Hren).
Qed.

Lemma other_paths_untouched_witness :
  let C := Scenario.collaborators [Scenario.v2] true false in
  @os_Getwd C = Ok "/go/src/app"
  ∧ within Scenario.vendor "/go/src/app/main.go" = false
  ∧ within Scenario.origvendor "/go/src/app/main.go" = false
  ∧ @RunGTA C (Scenario.flags "go test") [Scenario.foo] other_disk = Returns other_result
  ∧ w_fs (r_w other_result) !! "/go/src/app/main.go" = Some (File "package main").
Proof.
  intros C.
  assert (@RunGTA C (Scenario.flags "go test") [Scenario.foo] other_disk
          = Returns other_result) as Hr by (vm_compute; reflexivity).
  split_and!; [reflexivity|reflexivity|reflexivity|exact Hr|].
  rewrite (@other_paths_untouched C (Scenario.flags "go test") [Scenario.foo]
             other_disk "/go/src/app" "/go/src/app/main.go" other_result eq_refl
             eq_refl eq_refl); [by vm_compute| | |exact Hr].
  - intros s fs0 fs1 e [= <- _]. by apply lookup_insert_ne.
  - by intros name a fs0 fs1 out e [= <- _ _].
Defined.

(** ** The report and the order of effects *)

Section report_facts.
Context `{Collaborators}.
Variable fl : Flags.

Lemma reported_sweep_log (p : Prepared) (fs : FS) (vl : list Version) :
  omap reported (sweep_log fl p fs vl) = [].
Proof.
  unfold sweep_log. change (?x :: ?l ++ ?k) with ([x] ++ l ++ k).
  rewrite !omap_app. cbn. rewrite app_nil_r.
  induction vl as [|v vl IH]; [done|].
  cbn [fmap list_fmap concat]. rewrite omap_app, IH, app_nil_r.
  unfold sweep_events. cbn. unfold report_lines.
  destruct (soe_err (outcome p v)); cbn; destruct (verbose fl); cbn; try done.
  induction (omap verbose_project (default [] (soe_s (outcome p v)))) as [|x l IHl];
    done.
Qed.

Lemma reported_loop_run p vpath solns fs segs fs' failed :
  loop_run fl p vpath solns fs segs fs' failed →
  omap reported (concat segs) = (fun soln => (p_root p, soe_v soln)) <$> solns.
Proof.
  induction 1 as [|soln solns fs seg fs1 failed segs fs2 failed' Hone _ IH]; [done|].
  cbn. rewrite omap_app, IH. destruct Hone; try done. by destruct cerr.
Qed.

Lemma reported_wrapped wd fs pre fs1 fs2 post fs3 :
  wrapped fl wd fs pre fs1 fs2 post fs3 →
  omap reported pre = [] ∧ omap reported post = []
  ∧ solver_calls pre = [] ∧ solver_calls post = [].
Proof. by destruct 1. Qed.
End report_facts.

(** X7: a run that returns and is not stopped by a set-up or backup error
    has printed exactly one line of the final report (failed solving,
    succeeded, skipped check or failed command) per candidate, in the order
    of the filtered candidate list; and a run whose reports of the sweep
    can be built returns. *)
Theorem one_report_line_per_candidate `{Collaborators} (fl : Flags)
    (args : list string) (fs : FS) (p : Prepared) :
  prepare fl args = Ok p →
  (sweep_ok fl p (filterVersions (p_constraint p) (p_vlist p)) = true →
   ∃ r, RunGTA fl args fs = Returns r)
  ∧ ∀ r,
      RunGTA fl args fs = Returns r →
      aborted r = false →
      omap reported (w_log (r_w r))
      = (fun v => (p_root p, Some v)) <$> filterVersions (p_constraint p) (p_vlist p).
Proof.
  intros Hp. split.
  { intros Hok.
    destruct (decide (filterVersions (p_constraint p) (p_vlist p) = [])) as [Hnil|Hnn].
    - unfold RunGTA. rewrite Hp, Hnil. by eexists.
    - destruct (RunGTA_run fl args fs p Hp Hnn Hok) as (r & Hr & _). by exists r. }
  intros r Hr Hab.
  destruct (decide (filterVersions (p_constraint p) (p_vlist p) = [])) as [Hnil|Hnn].
  { unfold RunGTA in Hr. rewrite Hp, Hnil in Hr. by injection Hr as <-. }
  destruct (RunGTA_run fl args fs p Hp Hnn (RunGTA_returned fl args fs p r Hp Hnn Hr))
    as (r' & Hr' & Hsolns & Hcases).
  rewrite Hr in Hr'. injection Hr' as <-.
  destruct Hcases as [(e & _ & _ & _ & He & _)
                     |(pre & fs1 & segs & fs2 & failed & post & fs3 & Hw & Hl & _ & Hrw)].
  { unfold aborted in Hab. by rewrite He in Hab. }
  rewrite Hrw. cbn [r_w w_log].
  apply reported_wrapped in Hw as (Hpre & Hpost & _).
  rewrite !omap_app, reported_sweep_log, Hpre, Hpost,
    (reported_loop_run fl _ _ _ _ _ _ _ Hl), Hsolns.
  cbn. rewrite app_nil_r, <- list_fmap_compose.
  apply list_fmap_ext. intros k v _. cbn. f_equal.
  unfold outcome, solve. by repeat case_match.
Qed.

Lemma one_report_line_per_candidate_witness :
  let C := Scenario.collaborators [Scenario.v2] true true in
  @prepare C (Scenario.flags "go test") [Scenario.foo] = Ok Scenario.prepared
  ∧ @RunGTA C (Scenario.flags "go test") [Scenario.foo] Scenario.disk
    = Returns Scenario.checked_result
  ∧ aborted Scenario.checked_result = false
  ∧ omap reported (w_log (r_w Scenario.checked_result))
    = [(Scenario.foo, Some Scenario.v1); (Scenario.foo, Some Scenario.v2);
       (Scenario.foo, Some Scenario.v3)].
Proof.
  intros C.
  assert (@prepare C (Scenario.flags "go test") [Scenario.foo] = Ok Scenario.prepared)
    as Hp by (vm_compute; reflexivity).
  assert (@RunGTA C (Scenario.flags "go test") [Scenario.foo] Scenario.disk
          = Returns Scenario.checked_result) as Hr by (vm_compute; reflexivity).
  assert (aborted Scenario.checked_result = false) as Hab by reflexivity.
  split_and!; [exact Hp|exact Hr|exact Hab|].
  destruct (@one_report_line_per_candidate C _ _ Scenario.disk _ Hp) as [_ Hlines].
  rewrite (Hlines _ Hr Hab).
  by vm_compute.
Defined.

(** X8: every call of the solver comes before every effect on the file
    system: the log of a run splits into a first part that does not go to
    the file system and a second part without solver calls.  The vendor
    directory is backed up only once all candidates are solved. *)
Theorem solving_precedes_disk_effects `{Collaborators} (fl : Flags)
    (args : list string) (fs : FS) (r : Result) :
  RunGTA fl args fs = Returns r →
  ∃ before after,
    w_log (r_w r) = before ++ after
    ∧ Forall (fun e => touches_fs e.1 = false ∧ e.2 = fs) before
    ∧ solver_calls after = [].
Proof.
  intros Hr.
  destruct (prepare fl args) as [p|e] eqn:Hp.
  2: { rewrite (RunGTA_prepare_err fl args fs e Hp) in Hr.
       injection Hr as <-. by exists [], []. }
  destruct (decide (filterVersions (p_constraint p) (p_vlist p) = [])) as [Hnil|Hnn].
  { unfold RunGTA in Hr. rewrite Hp, Hnil in Hr. injection Hr as <-. by exists [], []. }
  destruct (RunGTA_run fl args fs p Hp Hnn (RunGTA_returned fl args fs p r Hp Hnn Hr))
    as (r' & Hr' & _ & Hcases).
  rewrite Hr in Hr'. injection Hr' as <-.
  destruct Hcases as [(e & _ & _ & _ & _ & ->)
                     |(pre & fs1 & segs & fs2 & failed & post & fs3 & Hw & Hl & _ & ->)];
    cbn [r_w w_log]; eexists _, _; (split; [done|]);
    (split; [apply (sweep_log_quiet fl)|]).
  - done.
  - apply reported_wrapped in Hw as (_ & _ & Hpre & Hpost).
    apply loop_run_failed in Hl as [_ Hns].
    by rewrite !solver_calls_app, Hpre, Hpost, (solver_calls_none _ Hns).
Qed.

Lemma solving_precedes_disk_effects_witness :
  let C := Scenario.collaborators [Scenario.v2] true true in
  @RunGTA C (Scenario.flags "go test") [Scenario.foo] Scenario.disk
  = Returns Scenario.checked_result
  ∧ ∃ before after,
      w_log (r_w Scenario.checked_result) = before ++ after
      ∧ Forall (fun e => touches_fs e.1 = false ∧ e.2 = Scenario.disk) before
      ∧ solver_calls after = [].
Proof.
  intros C.
  assert (@RunGTA C (Scenario.flags "go test") [Scenario.foo] Scenario.disk
          = Returns Scenario.checked_result) as Hr by (vm_compute; reflexivity).
  split; [exact Hr|].
  exact (@solving_precedes_disk_effects C _ _ _ _ Hr).
Defined.

(** X9: every call of the solver gets the same lock (the one the analyzer
    derived for the project), the working directory as root directory, the
    same import root, tracing switched on, and a root manifest without
    overrides and without ignored packages. *)
Theorem solver_parameters_fixed `{Collaborators} (fl : Flags)
    (args : list string) (fs : FS) (p : Prepared) (r : Result) :
  prepare fl args = Ok p →
  RunGTA fl args fs = Returns r →
  (∃ m, DeriveManifestAndLock (p_wd p) (p_importroot p) = Ok (m, p_lock p))
  ∧ Forall (fun params =>
              SP_Lock params = p_lock p
              ∧ RootDir params = p_wd p
              ∧ ImportRoot params = p_importroot p
              ∧ Trace params = true
              ∧ srm_Overrides (SP_Manifest params) = nilMap
              ∧ srm_IgnorePackages (SP_Manifest params) = nilMap)
      (solver_calls (w_log (r_w r))).
Proof.
  intros Hp Hr.
  destruct (prepare_inv_more fl _ _ Hp) as (vlist0 & m & _ & _ & _ & _ & Hml & Hrm).
  split; [by exists m|].
  destruct (decide (filterVersions (p_constraint p) (p_vlist p) = [])) as [Hnil|Hnn].
  { unfold RunGTA in Hr. rewrite Hp, Hnil in Hr. by injection Hr as <-. }
  rewrite (RunGTA_solver_calls fl args fs p r Hp Hnn Hr).
  apply Forall_fmap, Forall_true. intros v. cbn.
  unfold srm_Overrides, srm_IgnorePackages. cbn. rewrite Hrm. by destruct m.
Qed.

Lemma solver_parameters_fixed_witness :
  let C := Scenario.collaborators [Scenario.v2] true true in
  @prepare C (Scenario.flags "") [Scenario.foo] = Ok Scenario.prepared
  ∧ @RunGTA C (Scenario.flags "") [Scenario.foo] Scenario.disk
    = Returns Scenario.quiet_result
  ∧ Forall (fun params => RootDir params = "/go/src/app" ∧ ImportRoot params = "app")
      (solver_calls (w_log (r_w Scenario.quiet_result))).
Proof.
  intros C.
  assert (@prepare C (Scenario.flags "") [Scenario.foo] = Ok Scenario.prepared) as Hp
    by (vm_compute; reflexivity).
  assert (@RunGTA C (Scenario.flags "") [Scenario.foo] Scenario.disk
          = Returns Scenario.quiet_result) as Hr by (vm_compute; reflexivity).
  split_and!; [exact Hp|exact Hr|].
  destruct (@solver_parameters_fixed C _ _ _ _ _ Hp Hr) as [_ Hall].
  eapply Forall_impl; [exact Hall|].
  intros params (_ & Hroot & Himport & _). rewrite Hroot, Himport.
  split; vm_compute; reflexivity.
Defined.

(** X10: without a constraint flag, and with a collaborator whose
    [gps.Any()] matches every version, the candidates are the whole catalog
    in the order [gps.SortForUpgrade] gave it, so a run whose reports can be
    built returns an outcome for every listed version. *)
Theorem no_flag_sweeps_catalog `{Collaborators} (fl : Flags)
    (args : list string) (fs : FS) (p : Prepared) :
  prepare fl args = Ok p →
  branch fl = "" → semver fl = "" → version fl = "" →
  (∀ v, Matches Any v = true) →
  filterVersions (p_constraint p) (p_vlist p) = p_vlist p
  ∧ (∃ vlist0,
       ListVersions {| PI_ProjectRoot := p_root p; NetworkName := "" |} = Ok vlist0
       ∧ p_vlist p = SortForUpgrade vlist0)
  ∧ (p_vlist p ≠ [] → sweep_ok fl p (p_vlist p) = true →
     ∃ r, RunGTA fl args fs = Returns r
          ∧ soe_v <$> r_solns r = Some <$> p_vlist p).
Proof.
  intros Hp Hb Hs Hv Hany.
  destruct (prepare_inv fl _ _ Hp) as (pkg & m & _ & _ & Hcs & _).
  destruct (prepare_inv_more fl _ _ Hp) as (vlist0 & m' & Hlist & _ & Hsort & _).
  assert (p_constraint p = Any) as Hc.
  { unfold parseConstraint in Hcs. rewrite Hb, Hs, Hv in Hcs.
    rewrite (bool_decide_true ("" = "")) in Hcs by done. cbn in Hcs. congruence. }
  assert (filterVersions (p_constraint p) (p_vlist p) = p_vlist p) as Hall.
  { rewrite filterVersions_filter, Hc. apply filter_all, Forall_true, Hany. }
  split; [done|]. split; [by exists vlist0|].
  intros Hnn Hok. rewrite <- Hall in Hnn, Hok.
  destruct (RunGTA_run fl args fs p Hp Hnn Hok) as (r & Hr & Hsolns & _).
  exists r. split; [done|].
  rewrite Hsolns, Hall, <- list_fmap_compose.
  apply list_fmap_ext. intros k v _. cbn. unfold outcome, solve. by repeat case_match.
Qed.

Lemma no_flag_sweeps_catalog_witness :
  let C := Scenario.collaborators [Scenario.v2] true true in
  @prepare C (Scenario.flags "") [Scenario.foo] = Ok Scenario.prepared
  ∧ (∀ v, Scenario.matches Any v = true)
  ∧ @filterVersions C (p_constraint Scenario.prepared) (p_vlist Scenario.prepared)
    = [Scenario.v1; Scenario.v2; Scenario.v3]
  ∧ ∃ r, @RunGTA C (Scenario.flags "") [Scenario.foo] ∅ = Returns r
         ∧ soe_v <$> r_solns r = Some <$> [Scenario.v1; Scenario.v2; Scenario.v3].
Proof.
  intros C.
  assert (@prepare C (Scenario.flags "") [Scenario.foo] = Ok Scenario.prepared) as Hp
    by (vm_compute; reflexivity).
  split_and!; [exact Hp|done|..];
    destruct (@no_flag_sweeps_catalog C (Scenario.flags "") [Scenario.foo] ∅ _ Hp
                eq_refl eq_refl eq_refl ltac:(done)) as (Hall & _ & Hrun).
  - exact Hall.
  - apply Hrun; [done|vm_compute; reflexivity].
Defined.

(** ** The words of the command line *)

Lemma strings_Split_not_nil (s : string) (sep : ascii) : strings_Split s sep ≠ [].
Proof.
  destruct s as [|a s]; [done|]. cbn.
  destruct (Ascii.eqb a sep); [done|]. by destruct (strings_Split s sep).
Qed.

(** X11: cutting a string at a character loses nothing: joining the pieces
    with that character gives the string back, there is one piece more than
    there are occurrences of the character, and no piece contains it.  So
    the program and the arguments of the command, joined by single spaces,
    are the [--run] string. *)
Theorem strings_Split_Join (s : string) (sep : ascii) :
  strings_Join (strings_Split s sep) sep = s
  ∧ length (strings_Split s sep) = S (occurrences sep s)
  ∧ Forall (fun piece => occurrences sep piece = 0) (strings_Split s sep).
Proof.
  induction s as [|a s (IHj & IHl & IHf)]; [by repeat constructor|].
  cbn [strings_Split occurrences].
  destruct (Ascii.eqb a sep) eqn:Ha.
  - apply Ascii.eqb_eq in Ha as ->. split_and!.
    + cbn. destruct (strings_Split s sep) eqn:Hs; [by apply strings_Split_not_nil in Hs|].
      by rewrite IHj.
    + cbn. by rewrite IHl.
    + by constructor.
  - destruct (strings_Split s sep) as [|piece pieces] eqn:Hs;
      [by apply strings_Split_not_nil in Hs|].
    apply Forall_cons in IHf as [Hpiece Hpieces]. split_and!.
    + rewrite <- IHj. by destruct pieces.
    + done.
    + constructor; [|done]. cbn. by rewrite Ha.
Qed.

(** ** The import root *)

(** X12: the import root handed to the analyzer and to the solver is the
    working directory with the leading [GOPATH/src/] cut off, where
    [GOPATH/src] is the cleaned join of the two; a working directory that
    does not start with it is used whole, as it is. *)
Theorem import_root_of_wd `{Collaborators} (fl : Flags)
    (args : list string) (p : Prepared) :
  prepare fl args = Ok p →
  let srcprefix := filepath_Join GOPATH "src" +:+ "/" in
  os_Getwd = Ok (p_wd p)
  ∧ (∀ rel, p_wd p = srcprefix +:+ rel → p_importroot p = rel)
  ∧ ((∀ rel, p_wd p ≠ srcprefix +:+ rel) → p_importroot p = p_wd p).
Proof.
  intros Hp srcprefix.
  destruct (prepare_inv fl _ _ Hp) as (pkg & m & _ & Hwd & _).
  destruct (prepare_inv_more fl _ _ Hp) as (vlist0 & m' & _ & _ & _ & Hroot & _).
  fold srcprefix in Hroot. rewrite Hroot. unfold strings_TrimPrefix.
  split_and!; [done|..].
  - intros rel ->. by rewrite strip_prefix_app.
  - intros Hout. destruct (strip_prefix srcprefix (p_wd p)) as [rel|] eqn:Hs; [|done].
    apply strip_prefix_Some in Hs. by destruct (Hout rel).
Qed.

Lemma import_root_of_wd_witness :
  let C := Scenario.slash_gopath [] true true in
  @GOPATH C = "/go/"
  ∧ @prepare C (Scenario.flags "") [Scenario.foo] = Ok Scenario.prepared
  ∧ p_wd Scenario.prepared = "/go/src/" +:+ "app"
  ∧ p_importroot Scenario.prepared = "app".
Proof.
  intros C.
  assert (@prepare C (Scenario.flags "") [Scenario.foo] = Ok Scenario.prepared) as Hp
    by (vm_compute; reflexivity).
  split_and!; [reflexivity|exact Hp|reflexivity|].
  destruct (@import_root_of_wd C (Scenario.flags "") [Scenario.foo] _ Hp)
    as (_ & Hin & _).
  apply Hin. vm_compute. reflexivity.
Defined.

(** ** The godep loader, again *)

Section godep_more_facts.
Import godep.
Variable NormalizeName : string → string * string.

Let norm (d : Dependency) : string := (NormalizeName (ImportPath d)).1.

Lemma godep_Parse_loop_spec (deps : list Dependency) (seen : gmap string bool)
    (buf : list cfg_Dependency) :
  (∀ k b, seen !! k = Some b → b = true) →
  godep_Parse_loop NormalizeName deps seen buf
  = buf ++ ((fun d => {| Name := norm d; Version := Rev d |})
              <$> filter (fun d => seen !! norm d = None)
                    (first_occurrences NormalizeName deps)).
Proof.
  revert seen buf. induction deps as [|d deps IH]; intros seen buf Hseen.
  { cbn. by rewrite app_nil_r. }
  cbn [godep_Parse_loop first_occurrences]. fold (norm d).
  destruct (seen !! norm d) as [b|] eqn:Hd; cbn [default negb].
  - rewrite (Hseen _ _ Hd). unfold id. cbn [negb].
    rewrite IH by done. rewrite filter_cons_False by (intros Hn; congruence).
    rewrite list_filter_filter.
    rewrite (list_filter_iff
               (fun d' => seen !! norm d' = None ∧ norm d' ≠ norm d)
               (fun d' => seen !! norm d' = None)); [done|].
    intros d'. split; [by intros [? _]|]. intros Hd'. split; [done|congruence].
  - unfold id. cbn [negb]. rewrite IH.
    2: { intros k b. rewrite lookup_insert.
         case_decide; [by intros [= <-]|apply Hseen]. }
    rewrite filter_cons_True by done.
    rewrite list_filter_filter.
    rewrite (list_filter_iff
               (fun d' => <[norm d := true]> seen !! norm d' = None)
               (fun d' => seen !! norm d' = None ∧ norm d' ≠ norm d)).
    + cbn. by rewrite <- app_assoc.
    + intros d'. rewrite lookup_insert_None.
      split; intros [? ?]; (split; [done|congruence]).
Qed.

Lemma AsMetadataPair_Ok (g : Godeps) :
  AsMetadataPair NormalizeName (Ok g)
  = Ok ((fun d => {| Name := norm d; Version := "" |})
          <$> first_occurrences NormalizeName (Deps g),
        {| Imports := (fun d => {| L_Name := norm d; Revision := Rev d |})
                        <$> first_occurrences NormalizeName (Deps g) |}).
Proof.
  unfold AsMetadataPair. cbn. rewrite collect_spec. cbn.
  rewrite filter_all; [done|]. apply Forall_true. intros d. apply lookup_empty.
Qed.

Lemma godep_Parse_Ok (g : Godeps) :
  godep_Parse NormalizeName None (Ok g)
  = ((fun d => {| Name := norm d; Version := Rev d |})
       <$> first_occurrences NormalizeName (Deps g), None).
Proof.
  cbn. rewrite godep_Parse_loop_spec by (intros k b; by rewrite lookup_empty).
  rewrite filter_all; [done|]. apply Forall_true. intros d. apply lookup_empty.
Qed.

Lemma first_occurrences_NoDup_id (deps : list Dependency) :
  NoDup (norm <$> deps) → first_occurrences NormalizeName deps = deps.
Proof.
  induction deps as [|d deps IH]; [done|].
  rewrite fmap_cons, NoDup_cons. intros [Hd Hnd]. cbn. f_equal.
  rewrite IH by done. apply filter_all, Forall_forall. intros d' Hd' Heq.
  apply Hd. fold (norm d') (norm d) in Heq. rewrite <- Heq.
  by apply list_elem_of_fmap_2.
Qed.
End godep_more_facts.

(** X13: on a file that decodes, [Parse] and [AsMetadataPair] agree: they
    keep the same entries in the same order, the names [Parse] returns are
    the names of the manifest, and the versions [Parse] returns are the
    revisions of the lock, while the manifest itself names no version.  On a
    missing file [Parse] returns no entries and no error where
    [AsMetadataPair] returns the error, and [Has] tells the two cases
    apart. *)
Theorem Parse_agrees_with_AsMetadataPair (NormalizeName : string → string * string)
    (g : godep.Godeps) :
  ∃ buf m l,
    godep_Parse NormalizeName None (Ok g) = (buf, None)
    ∧ godep.AsMetadataPair NormalizeName (Ok g) = Ok (m, l)
    ∧ godep.Name <$> buf = godep.Name <$> m
    ∧ godep.Version <$> buf = godep.Revision <$> godep.Imports l
    ∧ godep.Name <$> m = godep.L_Name <$> godep.Imports l
    ∧ Forall (fun d => godep.Version d = "") m
    ∧ (∀ e, godep_Has (Some e) = false
            ∧ godep_Parse NormalizeName (Some e) (Ok g) = ([], None)
            ∧ godep.AsMetadataPair NormalizeName (Err e) = Err e).
Proof.
  eexists _, _, _. split; [apply godep_Parse_Ok|]. split; [apply AsMetadataPair_Ok|].
  cbn. rewrite <- !list_fmap_compose. split_and!; try done.
  by apply Forall_fmap, Forall_true.
Qed.

(** X14: the loader never returns more entries than the import list has,
    and when the canonical identifiers of the import list are pairwise
    different nothing is dropped: manifest and lock have one entry per
    import, in the order of the list. *)
Theorem AsMetadataPair_distinct_kept (NormalizeName : string → string * string)
    (g : godep.Godeps) :
  let norm d := (NormalizeName (godep.ImportPath d)).1 in
  (∃ m l, godep.AsMetadataPair NormalizeName (Ok g) = Ok (m, l)
          ∧ length m = length (godep.Imports l)
          ∧ length m ≤ length (godep.Deps g))
  ∧ (NoDup (norm <$> godep.Deps g) →
     godep.AsMetadataPair NormalizeName (Ok g)
     = Ok ((fun d => {| godep.Name := norm d; godep.Version := "" |})
             <$> godep.Deps g,
           {| godep.Imports :=
                (fun d => {| godep.L_Name := norm d; godep.Revision := godep.Rev d |})
                  <$> godep.Deps g |})).
Proof.
  intros norm. split.
  - eexists _, _. split; [apply AsMetadataPair_Ok|]. cbn.
    rewrite !length_fmap. split; [done|].
    apply sublist_length, first_occurrences_sublist.
  - intros Hnd. rewrite AsMetadataPair_Ok.
    by rewrite (first_occurrences_NoDup_id NormalizeName _ Hnd).
Qed.

Lemma AsMetadataPair_distinct_kept_witness :
  let g := {| godep.G_ImportPath := "github.com/me/app"; godep.GoVersion := "go1.6";
              godep.Packages := [];
              godep.Deps := tail (godep.Deps Scenario.godeps) |} in
  NoDup ((fun d => (Scenario.normalize (godep.ImportPath d)).1) <$> godep.Deps g)
  ∧ godep.AsMetadataPair Scenario.normalize (Ok g)
    = Ok ([ {| godep.Name := "github.com/baz/qux"; godep.Version := "" |};
            {| godep.Name := "github.com/foo/bar"; godep.Version := "" |} ],
          {| godep.Imports :=
               [ {| godep.L_Name := "github.com/baz/qux";
                    godep.Revision := "4444444ddddddd" |};
                 {| godep.L_Name := "github.com/foo/bar";
                    godep.Revision := "2222222bbbbbbb" |} ] |}).
Proof.
  intros g.
  assert (NoDup ((fun d => (Scenario.normalize (godep.ImportPath d)).1)
                   <$> godep.Deps g)) as Hnd.
  { apply (bool_decide_unpack _). by vm_compute. }
  split; [exact Hnd|].
  destruct (AsMetadataPair_distinct_kept Scenario.normalize g) as [_ Hkept].
  rewrite (Hkept Hnd). by vm_compute.
Defined.

(** ** The root manifest as the solver reads it *)

Section manifest_facts.

Let root (d : ProjectConstraint) : string := PI_ProjectRoot (Ident d).

Lemma index_by_root_elem (ds : list ProjectConstraint) (d : ProjectConstraint) :
  d ∈ (map_to_list (index_by_root ds)).*2
  ↔ last (filter (fun d' => root d' = root d) ds) = Some d.
Proof.
  rewrite list_elem_of_fmap. split.
  - intros ([k d'] & -> & Hin). cbn. apply elem_of_map_to_list in Hin.
    pose proof (index_by_root_keys _ _ _ Hin) as Hk. fold (root d') in Hk.
    unfold index_by_root in Hin.
    rewrite index_by_root_lookup, lookup_empty in Hin. rewrite Hk.
    by destruct (last _).
  - intros Hlast. exists (root d, d). split; [done|].
    apply elem_of_map_to_list. unfold index_by_root.
    rewrite index_by_root_lookup, lookup_empty.
    etrans; [|exact Hlast]. by destruct (last _).
Qed.

Lemma index_by_root_NoDup (ds : list ProjectConstraint) :
  NoDup (root <$> (map_to_list (index_by_root ds)).*2).
Proof.
  assert (root <$> (map_to_list (index_by_root ds)).*2
          = (map_to_list (index_by_root ds)).*1) as ->.
  { rewrite <- list_fmap_compose. apply list_fmap_ext. intros i [k d] Hi. cbn.
    apply list_elem_of_lookup_2, elem_of_map_to_list in Hi.
    by apply index_by_root_keys in Hi. }
  apply NoDup_fst_map_to_list.
Qed.

Lemma last_filter_in (ds : list ProjectConstraint) (d : ProjectConstraint) :
  d ∈ ds → ∃ d', last (filter (fun x => root x = root d) ds) = Some d'
                 ∧ root d' = root d ∧ d' ∈ ds.
Proof.
  intros Hin.
  destruct (last (filter (fun x => root x = root d) ds)) as [d'|] eqn:Hl.
  - exists d'. split; [done|]. apply last_Some in Hl as [l Hl].
    assert (d' ∈ filter (fun x => root x = root d) ds) as Hd'
      by (rewrite Hl; apply elem_of_app; right; left).
    by apply list_elem_of_filter in Hd'.
  - apply last_None in Hl. exfalso.
    eapply filter_nil_not_elem_of; [exact Hl| |exact Hin]. done.
Qed.

Lemma index_by_root_entries (ds : list ProjectConstraint) :
  let out := (map_to_list (index_by_root ds)).*2 in
  NoDup (root <$> out)
  ∧ (∀ d, d ∈ out → d ∈ ds)
  ∧ (∀ d, d ∈ ds → ∃ d', d' ∈ out ∧ root d' = root d)
  ∧ (NoDup (root <$> ds) → out ≡ₚ ds).
Proof.
  intros out. split; [apply index_by_root_NoDup|].
  assert (∀ d, d ∈ out → d ∈ ds) as Hsub.
  { intros d Hd. apply index_by_root_elem in Hd. apply last_Some in Hd as [l Hl].
    assert (d ∈ filter (fun d' => root d' = root d) ds) as Hd'
      by (rewrite Hl; apply elem_of_app; right; left).
    by apply list_elem_of_filter in Hd' as [_ ?]. }
  assert (∀ d, d ∈ ds → ∃ d', d' ∈ out ∧ root d' = root d) as Hcover.
  { intros d Hd. destruct (last_filter_in ds d Hd) as (d' & Hl & Hr & _).
    exists d'. split; [|done]. apply index_by_root_elem. by rewrite Hr. }
  split; [done|]. split; [done|].
  intros Hnd. apply NoDup_Permutation.
  - eapply NoDup_fmap_1, index_by_root_NoDup.
  - by eapply NoDup_fmap_1.
  - intros d. split; [apply Hsub|]. intros Hd.
    destruct (Hcover d Hd) as (d' & Hd' & Hr).
    assert (d' = d) as <-; [|done].
    apply Hsub in Hd'.
    apply list_elem_of_split in Hd as (l1 & l2 & ->).
    rewrite fmap_app, fmap_cons in Hnd.
    apply NoDup_app in Hnd as (_ & Hl1 & Hnd2). apply NoDup_cons in Hnd2 as [Hl2 _].
    rewrite elem_of_app, elem_of_cons in Hd'.
    destruct Hd' as [Hin|[->|Hin]]; [|done|].
    + destruct (Hl1 (root d')); [by apply list_elem_of_fmap_2|rewrite Hr; left].
    + destruct Hl2. rewrite <- Hr. by apply list_elem_of_fmap_2.
Qed.
End manifest_facts.

(** X15: what [DependencyConstraints()] and [TestDependencyConstraints()] of
    the root manifest return for a manifest: entries of the manifest's list,
    no two for the same project root, and one for every project root the
    list mentions. *)
Theorem root_manifest_entries (m : Manifest) :
  let root d := PI_ProjectRoot (Ident d) in
  let rm := prepManifest (Some m) in
  (NoDup (root <$> srm_DependencyConstraints rm)
   ∧ (∀ d, d ∈ srm_DependencyConstraints rm → d ∈ DependencyConstraints m)
   ∧ (∀ d, d ∈ DependencyConstraints m →
        ∃ d', d' ∈ srm_DependencyConstraints rm ∧ root d' = root d))
  ∧ (NoDup (root <$> srm_TestDependencyConstraints rm)
     ∧ (∀ d, d ∈ srm_TestDependencyConstraints rm → d ∈ TestDependencyConstraints m)
     ∧ (∀ d, d ∈ TestDependencyConstraints m →
          ∃ d', d' ∈ srm_TestDependencyConstraints rm ∧ root d' = root d)).
Proof.
  intros root rm. split.
  - destruct (index_by_root_entries (DependencyConstraints m)) as (H1 & H2 & H3 & _).
    by split_and!.
  - destruct (index_by_root_entries (TestDependencyConstraints m)) as (H1 & H2 & H3 & _).
    by split_and!.
Qed.

Lemma root_manifest_entries_witness :
  let rm := prepManifest (Some Scenario.manifest) in
  Scenario.dep Scenario.foo (SemverConstraint "^1.0.0") ∈ DependencyConstraints Scenario.manifest
  ∧ ∃ d', d' ∈ srm_DependencyConstraints rm
          ∧ PI_ProjectRoot (Ident d') = Scenario.foo.
Proof.
  intros rm.
  assert (Scenario.dep Scenario.foo (SemverConstraint "^1.0.0")
          ∈ DependencyConstraints Scenario.manifest) as Hin by (right; left).
  split; [exact Hin|].
  destruct (root_manifest_entries Scenario.manifest) as [(_ & _ & Hcover) _].
  exact (Hcover _ Hin).
Defined.

(** X16: when the project roots of a manifest's constraints are pairwise
    different, the root manifest hands the solver exactly those constraints
    (in some order): building the maps and reading them back loses nothing
    and adds nothing.  The same holds for the test-only constraints. *)
Theorem root_manifest_round_trip (m : Manifest) :
  let root d := PI_ProjectRoot (Ident d) in
  (NoDup (root <$> DependencyConstraints m) →
   srm_DependencyConstraints (prepManifest (Some m)) ≡ₚ DependencyConstraints m)
  ∧ (NoDup (root <$> TestDependencyConstraints m) →
     srm_TestDependencyConstraints (prepManifest (Some m))
     ≡ₚ TestDependencyConstraints m).
Proof.
  intros root. split; intros Hnd.
  - by destruct (index_by_root_entries (DependencyConstraints m)) as (_ & _ & _ & ->).
  - by destruct (index_by_root_entries (TestDependencyConstraints m)) as (_ & _ & _ & ->).
Qed.

Lemma root_manifest_round_trip_witness :
  NoDup ((fun d => PI_ProjectRoot (Ident d)) <$> DependencyConstraints Scenario.manifest)
  ∧ srm_DependencyConstraints (prepManifest (Some Scenario.manifest))
    ≡ₚ DependencyConstraints Scenario.manifest.
Proof.
  assert (NoDup ((fun d => PI_ProjectRoot (Ident d))
                   <$> DependencyConstraints Scenario.manifest)) as Hnd.
  { apply (bool_decide_unpack _). by vm_compute. }
  split; [exact Hnd|].
  destruct (root_manifest_round_trip Scenario.manifest) as [Hperm _].
  exact (Hperm Hnd).
Defined.

(** ** The verbose report *)

(** X17: the verbose line of a resolved project starts with a tab, the
    project's name as [ppi] gives it and [" at "].  Building it panics
    exactly when the version carries a revision of fewer than seven bytes
    (the revision is cut to its first seven); a version without a revision
    never panics. *)
Theorem verbose_project_revision (p : LockedProject) :
  (verbose_project p = None
   ↔ ∃ r, version_revision (LP_Version p) = Some r ∧ String.length r < 7)
  ∧ (∀ line, verbose_project p = Some line →
       ∃ rest, line = tab +:+ ppi (LP_Ident p) +:+ " at " +:+ rest).
Proof.
  unfold verbose_project. destruct (LP_Version p) as [r|u|u r]; cbn.
  - destruct (slice7 r) as [short|] eqn:Hs; cbn.
    + split; [|intros line [= <-]; by eexists].
      split; [done|]. intros (r' & [= <-] & Hlt).
      apply slice7_None in Hlt. congruence.
    + split; [|done]. split; [|done]. intros _. exists r. split; [done|].
      by apply slice7_None.
  - split; [|intros line [= <-]; by eexists].
    split; [done|]. by intros (r' & ? & _).
  - destruct (slice7 r) as [short|] eqn:Hs; cbn.
    + split; [|intros line [= <-]; by eexists].
      split; [done|]. intros (r' & [= <-] & Hlt).
      apply slice7_None in Hlt. congruence.
    + split; [|done]. split; [|done]. intros _. exists r. split; [done|].
      by apply slice7_None.
Qed.

Lemma verbose_project_revision_witness :
  let short := {| LP_Ident := {| PI_ProjectRoot := Scenario.foo; NetworkName := "" |};
                  LP_Version := Paired (NewVersion "v1") "abc123" |} in
  let long := {| LP_Ident := {| PI_ProjectRoot := Scenario.foo;
                                NetworkName := "github.com/fork/bar" |};
                 LP_Version := Scenario.v1 |} in
  verbose_project short = None
  ∧ verbose_project long
    = Some (tab +:+ "github.com/foo/bar (from github.com/fork/bar) at v1 (1111111)").
Proof.
  intros short long. split.
  - apply (verbose_project_revision short). exists "abc123". split; [done|]. cbn. lia.
  - reflexivity.
Defined.
